(** * pyocr.libtesseract: the multi-level grouping iterator

    A shallow embedding of [src/pyocr/libtesseract/__init__.py]:
    [MultiLevelIterator] (construction, [get_contents], [next],
    [is_at_beginning], [is_at_end], [nested]), [image_to_string] and
    [get_version].

    Python list objects live in a heap of lists and are referred to by
    location, so that a list handed to a boxer and later appended to is the
    same object.  Exceptions are a result type; the calls made to the
    backend and to the boxers are recorded in a log. *)

From Stdlib Require Import ZArith String Ascii List Lia Bool.
From stdpp Require Import base list.
Import ListNotations.

Local Open Scope string_scope.
Local Open Scope list_scope.
Set Warnings "-register-all".

(** ** Values, exceptions, state *)

(** Locations of list objects in the heap. *)
Abbreviation loc := nat (only parsing).

(** Python values that travel through the iterator.  [VList l] is a
    reference to the list object stored at [l] in the heap. *)
Inductive value : Type :=
| VNone
| VStr (s : string)
| VInt (z : Z)
| VTuple (vs : list value)
| VList (l : loc).

(** A string where a Python value is expected is the str object. *)
Coercion VStr : string >-> value.

(** KeyError carries the key that was looked up. *)
Inductive exn : Type :=
| IndexError
| KeyError (key : value)
| ValueError (msg : string)
| StopIteration
| TesseractError (status message : string)
| OtherError (msg : string).

Inductive outcome (A : Type) : Type :=
| Ret (a : A)
| Raise (e : exn).
Arguments Ret {A} a.
Arguments Raise {A} e.

(** tesseract_raw.PageIteratorLevel *)
Inductive PageIteratorLevel : Type := BLOCK | PARA | TEXTLINE | WORD | SYMBOL.

Abbreviation handle := nat (only parsing).

(** The calls that leave the module: to tesseract_raw and to the boxers. *)
Inductive event : Type :=
| CallInit (lang : option string)
| CallSetPageSegMode (h : handle) (mode : Z)
| CallSetImage (h : handle)
| CallRecognize (h : handle)
| CallGetIterator (h : handle)
| CallGetPageIterator
| CallCleanup (h : handle)
| CallGetUTF8Text (l : PageIteratorLevel)
| CallBoundingBox (l : PageIteratorLevel)
| CallNext (l : PageIteratorLevel)
| CallIsAtBeginningOf (l : PageIteratorLevel)
| CallIsAtFinalElement (l l' : PageIteratorLevel)
| CallBoxer (i : nat) (a b c : value).

Record state : Type := mkState {
  heap : list (list value);
  log : list event
}.

Definition M (A : Type) : Type := state -> outcome A * state.

Definition ret {A} (a : A) : M A := fun s => (Ret a, s).
Definition raise {A} (e : exn) : M A := fun s => (Raise e, s).
Definition bind {A B} (c : M A) (k : A -> M B) : M B :=
  fun s => match c s with
           | (Ret a, s') => k a s'
           | (Raise e, s') => (Raise e, s')
           end.

Notation "x <- c ;; k" := (bind c (fun x => k))
  (at level 100, c at next level, right associativity, only parsing).
Notation "c ;;; k" := (bind c (fun _ => k))
  (at level 100, right associativity, only parsing).

Definition lift {A} (o : outcome A) : M A := fun s => (o, s).

Definition emit (e : event) : M unit :=
  fun s => (Ret tt, mkState (heap s) (log s ++ [e])).

(** try: body finally: fin *)
Definition try_finally {A} (body : M A) (fin : M unit) : M A :=
  fun s => match body s with
           | (r, s1) => match fin s1 with
                        | (Ret _, s2) => (r, s2)
                        | (Raise e, s2) => (Raise e, s2)
                        end
           end.

(** try: c except StopIteration: (None) *)
Definition except_StopIteration {A} (c : M A) : M (option A) :=
  fun s => match c s with
           | (Ret a, s') => (Ret (Some a), s')
           | (Raise StopIteration, s') => (Ret None, s')
           | (Raise e, s') => (Raise e, s')
           end.

(** ** Python lists *)

(** l[i] for i >= 0 *)
Definition getitem {A} (l : list A) (i : nat) : M A :=
  match l !! i with
  | Some x => ret x
  | None => raise IndexError
  end.

(** l[-1] *)
Definition getitem_last {A} (l : list A) : outcome A :=
  match last l with
  | Some x => Ret x
  | None => Raise IndexError
  end.

(** l[i] = x for i >= 0 *)
Definition setitem {A} (l : list A) (i : nat) (x : A) : M (list A) :=
  if decide (i < length l) then ret (<[i:=x]> l) else raise IndexError.

(** list() / [] : a new list object *)
Definition new_list : M loc :=
  fun s => (Ret (length (heap s)), mkState (heap s ++ [[]]) (log s)).

(** a.append(v), a the list object at [a] *)
Definition list_append (a : loc) (v : value) : M unit :=
  fun s => (Ret tt, mkState (alter (fun l => l ++ [v]) a (heap s)) (log s)).

(** [list() for _ in range(n)] *)
Fixpoint new_lists (n : nat) : M (list loc) :=
  match n with
  | O => ret []
  | S n' => l <- new_list ;; ls <- new_lists n' ;; ret (l :: ls)
  end.

(** for i in range(start, start + n): acc = body(i, acc) *)
Fixpoint for_range {T} (body : nat -> T -> M T) (start n : nat) (acc : T) : M T :=
  match n with
  | O => ret acc
  | S n' => acc' <- body start acc ;; for_range body (S start) n' acc'
  end.

(** ** The backend iterator *)

(** Modelled from the spec: tesseract_raw (the ctypes binding, not among the
    sources) and the iterator it hands out.  A position of the iterator answers
    the four queries the module makes; the iterator is the list of positions
    from the current one on, stepped at the session's base level.  [exhausted]
    is what the backend answers when it is positioned on no element. *)
Record leaf : Type := mkLeaf {
  utf8_text : PageIteratorLevel -> value;
  bounding_box : PageIteratorLevel -> bool * (Z * Z * Z * Z);
  is_at_beginning_of : PageIteratorLevel -> bool;
  is_at_final_element : PageIteratorLevel -> PageIteratorLevel -> bool
}.

(** Modelled from the spec: the iterator object of tesseract_raw, as the
    positions still to visit (the current one first). *)
Record page_iterator : Type := mkIter {
  remaining : list leaf;
  exhausted : leaf
}.

Definition current (it : page_iterator) : leaf :=
  hd (exhausted it) (remaining it).

(** Modelled from the spec: tesseract_raw.page_iterator_next, true and one
    step forward when an element follows, false otherwise. *)
Definition page_iterator_next (it : page_iterator) (l : PageIteratorLevel)
  : bool * page_iterator :=
  match remaining it with
  | _ :: (_ :: _) as r => (true, mkIter r (exhausted it))
  | _ => (false, mkIter [] (exhausted it))
  end.

Definition result_iterator_get_utf8_text (it : page_iterator) (l : PageIteratorLevel)
  : M value :=
  emit (CallGetUTF8Text l) ;;; ret (utf8_text (current it) l).

Definition page_iterator_bounding_box (it : page_iterator) (l : PageIteratorLevel)
  : M (bool * (Z * Z * Z * Z)) :=
  emit (CallBoundingBox l) ;;; ret (bounding_box (current it) l).

Definition page_iterator_is_at_beginning_of (it : page_iterator) (l : PageIteratorLevel)
  : M bool :=
  emit (CallIsAtBeginningOf l) ;;; ret (is_at_beginning_of (current it) l).

Definition page_iterator_is_at_final_element (it : page_iterator)
  (l l' : PageIteratorLevel) : M bool :=
  emit (CallIsAtFinalElement l l') ;;; ret (is_at_final_element (current it) l l').

(** ** Module-level helpers *)

Definition _tess_box_to_pyocr_box (box : Z * Z * Z * Z) : value :=
  let '(b0, b1, b2, b3) := box in
  VTuple [VTuple [VInt b0; VInt b1]; VTuple [VInt b2; VInt b3]].

Definition clevel_od : list (string * PageIteratorLevel) :=
  [ ("block", BLOCK);
    ("para", PARA);
    ("line", TEXTLINE);
    ("word", WORD);
    ("symbol", SYMBOL) ].

Fixpoint od_get {V} (od : list (string * V)) (k : string) : option V :=
  match od with
  | [] => None
  | (k', v) :: od' => if String.eqb k k' then Some v else od_get od' k
  end.

(** od[k] *)
Definition od_getitem {V} (od : list (string * V)) (k : string) : M V :=
  match od_get od k with
  | Some v => ret v
  | None => raise (KeyError k)
  end.

(** k in l, for a list of strings *)
Definition str_in (k : string) (l : list string) : bool :=
  existsb (String.eqb k) l.

(** ** MultiLevelIterator *)

(** A boxer is a caller-supplied function of three arguments.  It may read
    the list objects it is handed, may raise, and does not mutate the heap. *)
Definition boxer : Type :=
  list (list value) -> value -> value -> value -> outcome value.

Definition call_boxer (i : nat) (b : boxer) (x y z : value) : M value :=
  emit (CallBoxer i x y z) ;;; (fun s => (b (heap s) x y z, s)).

(** The object's attributes; [self.iterator] is passed alongside. *)
Record MultiLevelIterator : Type := mkMLI {
  levels : list string;
  boxers : list boxer;
  base_level : string;
  base_boxer : boxer
}.

(** __init__ *)
Definition MultiLevelIterator_init (lvls : list string) (bxs : list boxer)
  : outcome MultiLevelIterator :=
  match getitem_last lvls with
  | Raise e => Raise e
  | Ret bl =>
      match getitem_last bxs with
      | Raise e => Raise e
      | Ret bb => Ret (mkMLI lvls bxs bl bb)
      end
  end.

Definition get_contents (self : MultiLevelIterator) (it : page_iterator)
  (level : string) : M (value * value * value) :=
  cl <- od_getitem clevel_od level ;;
  text <- result_iterator_get_utf8_text it cl ;;
  cl <- od_getitem clevel_od level ;;
  confidence <- result_iterator_get_utf8_text it cl ;;
  cl <- od_getitem clevel_od level ;;
  rbox <- page_iterator_bounding_box it cl ;;
  let '(r, box) := rbox in
  let position := _tess_box_to_pyocr_box box in
  ret (text, confidence, position).

Definition next (self : MultiLevelIterator) (it : page_iterator) : M page_iterator :=
  cl <- od_getitem clevel_od (base_level self) ;;
  emit (CallNext cl) ;;;
  let '(more, it') := page_iterator_next it cl in
  let is_last := negb more in
  if is_last then raise StopIteration else ret it'.

Definition is_at_beginning (self : MultiLevelIterator) (it : page_iterator)
  (level : string) : M bool :=
  if negb (str_in level (levels self)) then raise (ValueError "Unknown level")
  else
    cl <- od_getitem clevel_od level ;;
    page_iterator_is_at_beginning_of it cl.

Definition is_at_end (self : MultiLevelIterator) (it : page_iterator)
  (level lower_level : string) : M bool :=
  if negb (str_in level (levels self)) || negb (str_in lower_level (levels self))
  then raise (ValueError "Unknown level")
  else
    cl <- od_getitem clevel_od level ;;
    cl' <- od_getitem clevel_od lower_level ;;
    page_iterator_is_at_final_element it cl cl'.

(** The branch of the loop body taken at the base level: the boxer applied
    to the three components of [get_contents(level)], appended to [to_box[i]]. *)
Definition append_leaf (self : MultiLevelIterator) (it : page_iterator)
  (i : nat) (level : string) (boxer : boxer) (to_box : list loc) : M (list loc) :=
  acc <- getitem to_box i ;;
  tcp <- get_contents self it level ;;
  let '(t, c, p) := tcp in
  node <- call_boxer i boxer t c p ;;
  list_append acc node ;;;
  ret to_box.

(** The branch taken at every other level: the group-start check, then the
    group-end check. *)
Definition group_boundaries (self : MultiLevelIterator) (it : page_iterator)
  (i : nat) (level : string) (boxer : boxer) (to_box : list loc) : M (list loc) :=
  lower_level <- getitem (levels self) (i + 1) ;;
  b <- is_at_beginning self it level ;;
  to_box <- (if b : bool
             then (l <- new_list ;; setitem to_box (i + 1) l)
             else ret to_box) ;;
  e <- is_at_end self it level lower_level ;;
  if e : bool then
    tcp <- get_contents self it level ;;
    let '(t, c, p) := tcp in
    acc <- getitem to_box i ;;
    child <- getitem to_box (i + 1) ;;
    node <- call_boxer i boxer (VList child) c p ;;
    list_append acc node ;;;
    ret to_box
  else ret to_box.

(** The body of [for i in range(len(self.levels))] in [nested]. *)
Definition nested_iter (self : MultiLevelIterator) (it : page_iterator)
  (i : nat) (to_box : list loc) : M (list loc) :=
  level <- getitem (levels self) i ;;
  boxer <- getitem (boxers self) i ;;
  if String.eqb level (base_level self)
  then append_leaf self it i level boxer to_box
  else group_boundaries self it i level boxer to_box.

(** One turn of [while True]: the for loop over the levels. *)
Definition nested_body (self : MultiLevelIterator) (it : page_iterator)
  (to_box : list loc) : M (list loc) :=
  for_range (nested_iter self it) 0 (length (levels self)) to_box.

(** [while True: ...; try: self.next() except StopIteration: break].
    The recursion follows the positions left in the iterator: a successful
    [next] leaves the tail. *)
Fixpoint nested_loop (self : MultiLevelIterator) (blank : leaf)
  (ls : list leaf) (to_box : list loc) : M (list loc) :=
  let it := mkIter ls blank in
  to_box <- nested_body self it to_box ;;
  r <- except_StopIteration (next self it) ;;
  match r, ls with
  | Some _, _ :: ls' => nested_loop self blank ls' to_box
  | _, _ => ret to_box
  end.

Definition nested (self : MultiLevelIterator) (it : page_iterator) : M value :=
  to_box <- new_lists (length (levels self)) ;;
  to_box <- nested_loop self (exhausted it) (remaining it) to_box ;;
  r <- getitem to_box 0 ;;
  ret (VList r).

(** ** image_to_string *)

(** Modelled from the spec: the handle-level entry points of tesseract_raw
    (not among the sources).  Each may return or raise; [raw_get_iterator]
    answers [None] when the backend has no result iterator, and
    [raw_result_iterator_get_page_iterator] makes the page iterator of a
    result iterator (the two are the same kind of object). *)
Record tesseract_raw : Type := mkRaw {
  raw_init : option string -> outcome handle;
  raw_set_page_seg_mode : handle -> Z -> outcome unit;
  raw_set_image : handle -> value -> outcome unit;
  raw_recognize : handle -> outcome unit;
  raw_get_iterator : handle -> outcome (option page_iterator);
  raw_result_iterator_get_page_iterator : page_iterator -> outcome page_iterator;
  raw_cleanup : handle -> outcome unit
}.

(** Modelled from the spec: what the module reads from [builders] (not among
    the sources): a builder's layout and levels, the default builder and the
    module-level list of boxers. *)
Record builder : Type := mkBuilder {
  tesseract_layout : Z;
  builder_levels : list string
}.

Record builders_module : Type := mkBuilders {
  TextBuilder : builder;
  builders_boxers : list boxer
}.

Definition raw_call {A} (e : event) (o : outcome A) : M A :=
  emit e ;;; lift o.

Definition image_to_string (tr : tesseract_raw) (builders : builders_module)
  (image : value) (lang : option string) (builder : option builder) : M value :=
  let builder := match builder with
                 | None => TextBuilder builders
                 | Some b => b
                 end in
  handle <- raw_call (CallInit lang) (raw_init tr lang) ;;
  try_finally
    (raw_call (CallSetPageSegMode handle (tesseract_layout builder))
       (raw_set_page_seg_mode tr handle (tesseract_layout builder)) ;;;
     raw_call (CallSetImage handle) (raw_set_image tr handle image) ;;;
     raw_call (CallRecognize handle) (raw_recognize tr handle) ;;;
     res_iterator <- raw_call (CallGetIterator handle) (raw_get_iterator tr handle) ;;
     match res_iterator with
     | None => raise (TesseractError "no script" "no script detected")
     | Some res_iterator =>
         page_iterator <- raw_call CallGetPageIterator
                            (raw_result_iterator_get_page_iterator tr res_iterator) ;;
         mli <- lift (MultiLevelIterator_init (builder_levels builder)
                        (builders_boxers builders)) ;;
         out <- nested mli page_iterator ;;
         ret out
     end)
    (raw_call (CallCleanup handle) (raw_cleanup tr handle)).

(** ** get_version *)

(** s.split(sep, 1)[0] *)
Fixpoint str_before (sep : ascii) (s : string) : string :=
  match s with
  | EmptyString => EmptyString
  | String c s' => if Ascii.eqb c sep then EmptyString else String c (str_before sep s')
  end.

(** s.split(sep) for a one-character separator *)
Fixpoint str_split (sep : ascii) (s : string) : list string :=
  match s with
  | EmptyString => [EmptyString]
  | String c s' =>
      if Ascii.eqb c sep then EmptyString :: str_split sep s'
      else match str_split sep s' with
           | h :: t => String c h :: t
           | [] => [String c EmptyString]
           end
  end.

(** s.find(sub), counting from [i] *)
Fixpoint str_find_from (sub s : string) (i : Z) : Z :=
  if String.prefix sub s then i
  else match s with
       | EmptyString => (-1)%Z
       | String _ s' => str_find_from sub s' (i + 1)%Z
       end.

Definition str_find (sub s : string) : Z := str_find_from sub s 0%Z.

(** s[:i], for any integer i *)
Definition str_slice_to (s : string) (i : Z) : string :=
  let n := Z.of_nat (String.length s) in
  let stop := if (i <? 0)%Z then Z.max 0 (n + i) else Z.min i n in
  String.substring 0 (Z.to_nat stop) s.

(** White space for int() on an ASCII string: tab, line feed, vertical
    tab, form feed, carriage return and space. *)
Definition is_space (c : ascii) : bool :=
  let n := nat_of_ascii c in
  (n =? 32)%nat || ((9 <=? n)%nat && (n <=? 13)%nat).

Definition digit_of (c : ascii) : option Z :=
  let n := nat_of_ascii c in
  if (48 <=? n)%nat && (n <=? 57)%nat then Some (Z.of_nat (n - 48)) else None.

Fixpoint lstrip (s : string) : string :=
  match s with
  | String c s' => if is_space c then lstrip s' else s
  | EmptyString => EmptyString
  end.

Fixpoint rstrip (s : string) : string :=
  match s with
  | EmptyString => EmptyString
  | String c s' =>
      match rstrip s' with
      | EmptyString => if is_space c then EmptyString else String c EmptyString
      | r => String c r
      end
  end.

(** Decimal digits, single underscores allowed between digits.
    [acc] is the value so far, [prev] tells whether the previous character
    was a digit. *)
Fixpoint digits_value (s : string) (acc : Z) (prev : bool) : option Z :=
  match s with
  | EmptyString => if prev then Some acc else None
  | String c s' =>
      match digit_of c with
      | Some d => digits_value s' (10 * acc + d)%Z true
      | None =>
          if Ascii.eqb c "_"%char && prev
          then match s' with
               | EmptyString => None
               | String c' _ =>
                   match digit_of c' with
                   | Some _ => digits_value s' acc false
                   | None => None
                   end
               end
          else None
      end
  end.

(** c in s *)
Fixpoint str_mem (c : ascii) (s : string) : bool :=
  match s with
  | EmptyString => false
  | String c' s' => Ascii.eqb c c' || str_mem c s'
  end.

Definition hex_digit (n : nat) : ascii :=
  match String.get n "0123456789abcdef" with
  | Some c => c
  | None => "0"%char
  end.

Definition single_quote : ascii := "039"%char.
Definition double_quote : ascii := "034"%char.
Definition backslash : ascii := "092"%char.

(** The characters of repr(s) between the quotes [q], for an ASCII string:
    the quote and the backslash are escaped, tab, line feed and carriage
    return are written with their letters, the other control characters in
    hexadecimal. *)
Fixpoint repr_body (q : ascii) (s : string) : string :=
  match s with
  | EmptyString => EmptyString
  | String c s' =>
      let n := nat_of_ascii c in
      (if Ascii.eqb c q || Ascii.eqb c backslash
       then String backslash (String c EmptyString)
       else if (n =? 9)%nat then String backslash "t"
       else if (n =? 10)%nat then String backslash "n"
       else if (n =? 13)%nat then String backslash "r"
       else if (n <? 32)%nat || (127 <=? n)%nat
       then String backslash
              (String "x" (String (hex_digit (n / 16))
                             (String (hex_digit (n mod 16)) EmptyString)))
       else String c EmptyString)
      ++ repr_body q s'
  end.

(** repr(s) for an ASCII string: in single quotes, unless the string has a
    single quote and no double quote. *)
Definition py_repr (s : string) : string :=
  let q := if str_mem single_quote s && negb (str_mem double_quote s)
           then double_quote else single_quote in
  String q (repr_body q s ++ String q EmptyString).

(** The ValueError of int(s): the message names the literal by its repr, of
    which 200 characters at most are written. *)
Definition int_error (s : string) : exn :=
  ValueError ("invalid literal for int() with base 10: "
              ++ String.substring 0 200 (py_repr s)).

(** int(s) for an ASCII string: surrounding white space, an optional sign,
    decimal digits. *)
Definition py_int (s : string) : outcome Z :=
  let body := rstrip (lstrip s) in
  let '(neg, ds) :=
    match body with
    | String "-"%char r => (true, r)
    | String "+"%char r => (false, r)
    | _ => (false, body)
    end in
  match digits_value ds 0%Z false with
  | Some z => Ret (if neg then (- z)%Z else z)
  | None => Raise (int_error s)
  end.

(** The part of [get_version] after the token has been cut. *)
Definition parse_version (version : string) : M (Z * Z * Z) :=
  let version := str_split "."%char version in
  v0 <- getitem version 0 ;;
  major <- lift (py_int v0) ;;
  v1 <- getitem version 1 ;;
  minor <- lift (py_int v1) ;;
  let upd := 0%Z in
  upd <- (if (3 <=? length version)%nat
          then v2 <- getitem version 2 ;; lift (py_int v2)
          else ret upd) ;;
  ret (major, minor, upd).

(** [raw_version] is what tesseract_raw.get_version() returns. *)
Definition get_version (raw_version : string) : M (Z * Z * Z) :=
  let version := raw_version in
  let version := str_before " "%char version in
  let index := str_find "dev" version in
  let version := if (index =? 0)%Z then version else str_slice_to version index in
  parse_version version.

(** s[:-1] *)
Definition str_drop_last (s : string) : string :=
  String.substring 0 (String.length s - 1) s.

(** ** Running a computation *)

Definition empty_state : state := mkState [] [].

Definition run {A} (c : M A) : outcome A * state := c empty_state.

(** ** Canonical boxers and the tree they build *)

(** LeafNode: (text, confidence, boundingBox) *)
Definition leaf_boxer : boxer :=
  fun _ text confidence position => Ret (VTuple [text; confidence; position]).

(** GroupNode: (children, boundingBox); [children] is the list object that
    was passed in, not a copy of it. *)
Definition group_boxer : boxer :=
  fun _ children _ position => Ret (VTuple [children; position]).

(** One group boxer for each of the [n] coarser levels, the leaf boxer for
    the base level. *)
Definition canonical_boxers (n : nat) : list boxer :=
  replicate n group_boxer ++ [leaf_boxer].

(** The list object that a group node refers to. *)
Definition group_children (v : value) : option loc :=
  match v with
  | VTuple [VList l; _] => Some l
  | _ => None
  end.

(** Depth-first walk of a node with [d] levels of groups above the leaves. *)
Fixpoint walk (h : list (list value)) (d : nat) (v : value) : list value :=
  match d with
  | O => [v]
  | S d' =>
      match group_children v with
      | Some l => flat_map (walk h d') (h !!! l)
      | None => []
      end
  end.

(** The leaves below the list object [l], whose elements have depth [d]. *)
Definition walk_list (h : list (list value)) (d : nat) (l : loc) : list value :=
  flat_map (walk h d) (h !!! l).

(** What [get_contents] reads at a position for clevel [cl]. *)
Definition contents_at (lf : leaf) (cl : PageIteratorLevel) : value * value * value :=
  (utf8_text lf cl, utf8_text lf cl, _tess_box_to_pyocr_box (snd (bounding_box lf cl))).

Definition leaf_node (cl : PageIteratorLevel) (lf : leaf) : value :=
  let '(t, c, p) := contents_at lf cl in VTuple [t; c; p].

(** ** Sample data *)

(** A position whose text is [txt] at every level, with the given answers to
    the boundary queries. *)
Definition sample_leaf (txt : string) (box : Z * Z * Z * Z)
  (starts : PageIteratorLevel -> bool)
  (ends : PageIteratorLevel -> PageIteratorLevel -> bool) : leaf :=
  mkLeaf (fun _ => VStr txt) (fun _ => (true, box)) starts ends.

Definition nowhere : leaf :=
  mkLeaf (fun _ => VNone) (fun _ => (false, (0, 0, 0, 0)%Z))
         (fun _ => false) (fun _ _ => false).

Definition yes1 : PageIteratorLevel -> bool := fun _ => true.
Definition no1 : PageIteratorLevel -> bool := fun _ => false.
Definition yes2 : PageIteratorLevel -> PageIteratorLevel -> bool := fun _ _ => true.
Definition no2 : PageIteratorLevel -> PageIteratorLevel -> bool := fun _ _ => false.

(** Two lines of three words each. *)
Definition two_lines : page_iterator :=
  mkIter [ sample_leaf "a" (0, 0, 1, 1)%Z yes1 no2;
           sample_leaf "b" (1, 0, 2, 1)%Z no1 no2;
           sample_leaf "c" (2, 0, 3, 1)%Z no1 yes2;
           sample_leaf "d" (0, 1, 1, 2)%Z yes1 no2;
           sample_leaf "e" (1, 1, 2, 2)%Z no1 no2;
           sample_leaf "f" (2, 1, 3, 2)%Z no1 yes2 ]
         nowhere.

Definition line_word : MultiLevelIterator :=
  mkMLI ["line"; "word"] (canonical_boxers 1) "word" leaf_boxer.

(** Boundary answers for blocks and lines. *)
Definition block_line (b l : bool) : PageIteratorLevel -> bool :=
  fun c => match c with BLOCK => b | TEXTLINE => l | _ => false end.

Definition block_line_end (b l : bool) : PageIteratorLevel -> PageIteratorLevel -> bool :=
  fun c _ => block_line b l c.

(** Two blocks: the first has the lines "a b" and "c", the second the
    line "d". *)
Definition two_blocks : page_iterator :=
  mkIter [ sample_leaf "a" (0, 0, 1, 1)%Z (block_line true true) (block_line_end false false);
           sample_leaf "b" (1, 0, 2, 1)%Z (block_line false false) (block_line_end false true);
           sample_leaf "c" (0, 1, 1, 2)%Z (block_line false true) (block_line_end true true);
           sample_leaf "d" (0, 3, 1, 4)%Z (block_line true true) (block_line_end true true) ]
         nowhere.

Definition block_line_word : MultiLevelIterator :=
  mkMLI ["block"; "line"; "word"] (canonical_boxers 2) "word" leaf_boxer.

(** ** A sample backend *)

Definition sample_raw : tesseract_raw :=
  mkRaw (fun _ => Ret 7)
        (fun _ _ => Ret tt)
        (fun _ _ => Ret tt)
        (fun _ => Ret tt)
        (fun _ => Ret (Some two_lines))
        (fun res_iterator => Ret res_iterator)
        (fun _ => Ret tt).

Definition sample_builders : builders_module :=
  mkBuilders (mkBuilder 3 ["line"; "word"]) (canonical_boxers 1).

(** [c] only appends to the log, and every event it appends satisfies [P]. *)
Definition emits {A} (P : event -> Prop) (c : M A) : Prop :=
  forall s, exists evs, log (snd (c s)) = log s ++ evs /\ Forall P evs.

(** The events of a grouping session: queries to the iterator and calls of
    boxers. *)
Definition session_event (e : event) : Prop :=
  match e with
  | CallGetUTF8Text _ | CallBoundingBox _ | CallNext _
  | CallIsAtBeginningOf _ | CallIsAtFinalElement _ _ | CallBoxer _ _ _ _ => True
  | _ => False
  end.

Definition not_init_or_cleanup (e : event) : Prop :=
  match e with
  | CallInit _ | CallCleanup _ => False
  | _ => True
  end.

(** ** Vocabulary for the statements *)

(** The node a leaf boxer that computes [f] makes of a position. *)
Definition boxed_leaf (f : value -> value -> value -> value)
  (cl : PageIteratorLevel) (lf : leaf) : value :=
  let '(t, c, p) := contents_at lf cl in f t c p.

(** The calls made to read a position at [cl] and box it with boxer [i]. *)
Definition leaf_calls (i : nat) (cl : PageIteratorLevel) (lf : leaf) : list event :=
  let '(t, c, p) := contents_at lf cl in
  [CallGetUTF8Text cl; CallGetUTF8Text cl; CallBoundingBox cl; CallBoxer i t c p].

Definition boundary_query (e : event) : bool :=
  match e with
  | CallIsAtBeginningOf _ | CallIsAtFinalElement _ _ => true
  | _ => false
  end.


(** The list object that a computation returned, read in the final heap. *)
Definition returned_list (r : outcome value * state) : option (list value) :=
  match r with
  | (Ret (VList l), s) => heap s !! l
  | _ => None
  end.

Definition single_word : MultiLevelIterator :=
  mkMLI ["word"] [leaf_boxer] "word" leaf_boxer.

Definition no_leaves : page_iterator := mkIter [] nowhere.

(** The tuple that the leaf boxer builds. *)
Definition word_tuple : value -> value -> value -> value :=
  fun t c p => VTuple [t; c; p].

(** ** The order of the steps in one turn of the loop *)

(** Iteration [i] of the for loop at a level other than the base level. *)
Definition coarse_step (self : MultiLevelIterator) (it : page_iterator)
  (i : nat) (to_box : list loc) : M (list loc) :=
  level <- getitem (levels self) i ;;
  boxer <- getitem (boxers self) i ;;
  group_boundaries self it i level boxer to_box.

(** Iteration [i] of the for loop at the base level. *)
Definition base_step (self : MultiLevelIterator) (it : page_iterator)
  (i : nat) (to_box : list loc) : M (list loc) :=
  level <- getitem (levels self) i ;;
  boxer <- getitem (boxers self) i ;;
  append_leaf self it i level boxer to_box.

(** The coarser levels from the coarsest on, then the base level. *)
Definition coarse_then_base (self : MultiLevelIterator) (it : page_iterator)
  (to_box : list loc) : M (list loc) :=
  let n := length (levels self) in
  to_box <- for_range (coarse_step self it) 0 (n - 1) to_box ;;
  base_step self it (n - 1) to_box.


(** No level identifier occurs twice. *)
Fixpoint distinct (l : list string) : bool :=
  match l with
  | [] => true
  | x :: r => negb (str_in x r) && distinct r
  end.

(** A line that consists of one word. *)
Definition one_word_line : page_iterator :=
  mkIter [sample_leaf "a" (0, 0, 1, 1)%Z yes1 yes2] nowhere.


(** The heap and [to_box] after the group-start check of iteration [i]:
    when the position starts a group, slot [i + 1] holds a new empty list. *)
Definition after_start_check (starts : bool) (i : nat) (to_box : list loc)
  (h : list (list value)) : list loc * list (list value) :=
  if starts then (<[i + 1 := length h]> to_box, h ++ [[]]) else (to_box, h).

(** ** One turn of the loop as a function on the heap *)

(** The answers of a position for one of the coarser levels: whether it
    starts a group of the level, whether it ends one, and the bounding box of
    the group. *)
Record boundary : Type := mkBoundary {
  starts : bool;
  ends : bool;
  group_box : value
}.

(** The boundaries of a position for the levels [cls] but the last,
    coarsest first. *)
Fixpoint boundaries (cls : list PageIteratorLevel) (lf : leaf) : list boundary :=
  match cls with
  | [] => []
  | c :: r =>
      match r with
      | [] => []
      | c' :: _ =>
          mkBoundary (is_at_beginning_of lf c) (is_at_final_element lf c c')
                     (_tess_box_to_pyocr_box (snd (bounding_box lf c)))
          :: boundaries r lf
      end
  end.

(** The effect of one turn with the canonical boxers on [to_box = a :: rest]
    and the heap, from the level whose accumulator is [a] on. *)
Fixpoint sweep (fl : list boundary) (leafv : value) (a : loc) (rest : list loc)
  (h : list (list value)) : list loc * list (list value) :=
  match fl, rest with
  | b :: fl', a' :: rest' =>
      let a1 := if starts b then length h else a' in
      let h1 := if starts b then h ++ [[]] else h in
      let h2 := if ends b
                then alter (fun xs => xs ++ [VTuple [VList a1; group_box b]]) a h1
                else h1 in
      let '(rest'', h3) := sweep fl' leafv a1 rest' h2 in
      (a1 :: rest'', h3)
  | _, _ => (rest, alter (fun xs => xs ++ [leafv]) a h)
  end.

(** Groups nest: once a level's flag is set, the flags of all finer levels
    are set. *)
Fixpoint nesting (bs : list bool) : bool :=
  match bs with
  | [] => true
  | b :: r => (if b then forallb id r else true) && nesting r
  end.

(** Every list reachable from [v] within [d] levels lies strictly between
    [lo] and [hi]. *)
Fixpoint bounded (h : list (list value)) (lo hi : nat) (d : nat) (v : value) : Prop :=
  match d with
  | O => True
  | S d' =>
      match group_children v with
      | Some l => lo < l < hi /\ Forall (bounded h lo hi d') (h !!! l)
      | None => True
      end
  end.

(** The accumulators between two turns.  [a] is the accumulator of a level,
    [rest] those of the finer levels, [cls] tells for each level but the base
    level whether its current group was closed by the last position, and
    [done] are the leaves seen so far that are not yet below a coarser
    accumulator.  The accumulators of open levels increase, and the lists
    below an accumulator lie between it and the next one. *)
Fixpoint accumulated (h : list (list value)) (a : loc) (rest : list loc)
  (cls : list bool) (done : list value) : Prop :=
  a < length h /\
  match rest, cls with
  | [], [] => h !!! a = done
  | a' :: rest', c :: cls' =>
      length rest' = length cls' /\
      if c then
        walk_list h (length rest) a = done /\
        Forall (bounded h a (length h) (length rest)) (h !!! a)
      else
        a < a' /\
        Forall (bounded h a a' (length rest)) (h !!! a) /\
        exists done2,
          done = walk_list h (length rest) a ++ done2 /\
          accumulated h a' rest' cls' done2
  | _, _ => False
  end.



(** All the turns of the loop, one for each position. *)
Fixpoint sweeps (cls : list PageIteratorLevel) (cm : PageIteratorLevel)
  (ls : list leaf) (a : loc) (rest : list loc) (h : list (list value))
  : list loc * list (list value) :=
  match ls with
  | [] => (rest, h)
  | lf :: ls' =>
      let '(rest', h') := sweep (boundaries cls lf) (leaf_node cm lf) a rest h in
      sweeps cls cm ls' a rest' h'
  end.

(** The boundary contract of the cursor for the levels [cls], given which
    groups the previous position closed: a position starts a group of a level
    exactly when the previous position ended one, a group that ends ends the
    groups of all finer levels with it, and the last position ends every
    group. *)
Fixpoint well_formed_from (cls : list PageIteratorLevel) (closed : list bool)
  (ls : list leaf) : bool :=
  match ls with
  | [] => forallb id closed
  | lf :: ls' =>
      let fl := boundaries cls lf in
      bool_decide (map starts fl = closed)
      && nesting (map ends fl)
      && well_formed_from cls (map ends fl) ls'
  end.

(** Before the first position every group counts as closed: the first
    position starts a group of every level. *)
Definition well_formed (cls : list PageIteratorLevel) (ls : list leaf) : bool :=
  well_formed_from cls (replicate (length cls - 1) true) ls.

(** [c] run from [s] returns [x] and leaves the heap [h]. *)
Definition yields {A} (c : M A) (s : state) (x : A) (h : list (list value)) : Prop :=
  exists evs, c s = (Ret x, mkState h (log s ++ evs)).



(** clevel_od[l] for each of the levels, when all are named. *)
Fixpoint clevels (lvls : list string) : option (list PageIteratorLevel) :=
  match lvls with
  | [] => Some []
  | l :: r =>
      match od_get clevel_od l, clevels r with
      | Some c, Some cs => Some (c :: cs)
      | _, _ => None
      end
  end.

(** A line whose last word does not report the end of the line. *)
Definition unfinished_line : page_iterator :=
  mkIter [sample_leaf "a" (0, 0, 1, 1)%Z yes1 no2] nowhere.

(** A group boxer that copies the children it is given. *)
Definition copying_group_boxer : boxer :=
  fun h children _ position =>
    match children with
    | VList l => Ret (VTuple [VTuple (h !!! l); position])
    | _ => Raise (OtherError "not a list")
    end.

Definition line_word_copying : MultiLevelIterator :=
  mkMLI ["line"; "word"] [copying_group_boxer; leaf_boxer] "word" leaf_boxer.

(** ** Valid level specifications *)

(** The levels are distinct and named in clevel_od, the base level is the
    last of them, and every level has its boxer. *)
Definition valid_spec (self : MultiLevelIterator) : bool :=
  distinct (levels self)
  && match clevels (levels self) with Some _ => true | None => false end
  && match last (levels self) with
     | Some l => String.eqb l (base_level self)
     | None => false
     end
  && (length (boxers self) =? length (levels self))%nat.


(** ** detect_orientation, get_available_languages, is_available *)

(** tesseract_raw.Orientation; [PAGE_OTHER id] stands for any other integer
    the backend may report. *)
Inductive Orientation : Type :=
| PAGE_UP
| PAGE_RIGHT
| PAGE_DOWN
| PAGE_LEFT
| PAGE_OTHER (id : Z).

(** The dictionary that [detect_os] returns.  The confidence is a number of
    the backend; the module only compares it with zero and hands it on, so
    its type [N] is left open. *)
Record os_result (N : Type) : Type := mkOs {
  os_orientation : Orientation;
  os_confidence : N
}.
Arguments mkOs {N} _ _.
Arguments os_orientation {N} _.
Arguments os_confidence {N} _.

(** Modelled from the spec: the further entry points of tesseract_raw (not
    among the sources) that the module calls, and the constant
    PageSegMode.OSD_ONLY.  [nonpositive] is the comparison [<= 0] on the
    backend's numbers. *)
Record tesseract_raw_more (N : Type) : Type := mkRawMore {
  OSD_ONLY : Z;
  nonpositive : N -> bool;
  raw_detect_os : handle -> outcome (os_result N);
  raw_get_available_languages : handle -> outcome (list string);
  raw_is_available : bool;
  raw_get_version : string
}.
Arguments mkRawMore {N} _ _ _ _ _ _.
Arguments OSD_ONLY {N} _.
Arguments nonpositive {N} _ _.
Arguments raw_detect_os {N} _ _.
Arguments raw_get_available_languages {N} _ _.
Arguments raw_is_available {N} _.
Arguments raw_get_version {N} _.

(** The dictionary that [detect_orientation] returns. *)
Record orientation_result (N : Type) : Type := mkOrientation {
  angle : Z;
  confidence : N
}.
Arguments mkOrientation {N} _ _.
Arguments angle {N} _.
Arguments confidence {N} _.

(** The dictionary literal of [detect_orientation], looked up at [o]. *)
Definition orientation_angle (o : Orientation) : M Z :=
  match o with
  | PAGE_UP => ret 0%Z
  | PAGE_RIGHT => ret 90%Z
  | PAGE_DOWN => ret 180%Z
  | PAGE_LEFT => ret 270%Z
  | PAGE_OTHER id => raise (KeyError (VInt id))
  end.

(** The calls of [detect_os] and [get_available_languages] leave no entry in
    the log, which has no event for them. *)
Definition detect_orientation {N} (tr : tesseract_raw) (tm : tesseract_raw_more N)
  (image : value) (lang : option string) : M (orientation_result N) :=
  handle <- raw_call (CallInit lang) (raw_init tr lang) ;;
  try_finally
    (raw_call (CallSetPageSegMode handle (OSD_ONLY tm))
       (raw_set_page_seg_mode tr handle (OSD_ONLY tm)) ;;;
     raw_call (CallSetImage handle) (raw_set_image tr handle image) ;;;
     os <- lift (raw_detect_os tm handle) ;;
     if nonpositive tm (os_confidence os)
     then raise (TesseractError "no script" "no script detected")
     else
       orientation <- orientation_angle (os_orientation os) ;;
       ret (mkOrientation orientation (os_confidence os)))
    (raw_call (CallCleanup handle) (raw_cleanup tr handle)).

Definition get_available_languages {N} (tr : tesseract_raw)
  (tm : tesseract_raw_more N) : M (list string) :=
  handle <- raw_call (CallInit None) (raw_init tr None) ;;
  try_finally
    (lift (raw_get_available_languages tm handle))
    (raw_call (CallCleanup handle) (raw_cleanup tr handle)).

Definition is_available {N} (tm : tesseract_raw_more N) : M bool :=
  let available := raw_is_available tm in
  if negb available then ret false
  else
    version <- get_version (raw_get_version tm) ;;
    let '(v0, v1, _) := version in
    if (v0 <? 3)%Z || ((v0 =? 3)%Z && (v1 <? 4)%Z) then ret false
    else ret true.

(** A backend for orientation detection. *)
Definition sample_osd (o : Orientation) (conf : Z) (version : string) (avail : bool)
  : tesseract_raw_more Z :=
  mkRawMore 0%Z (fun c => (c <=? 0)%Z) (fun _ => Ret (mkOs o conf))
            (fun _ => Ret ["eng"; "fra"]) avail version.







(** ** Vocabulary for the further properties *)

(** Every list object of [h] is still there in [h'], with its elements as
    a prefix of what it holds now. *)
Definition heap_extends (h h' : list (list value)) : Prop :=
  forall l xs, h !! l = Some xs -> exists ys, h' !! l = Some (xs ++ ys).

(** [c] only allocates lists and appends to lists. *)
Definition grows {A} (c : M A) : Prop :=
  forall s, heap_extends (heap s) (heap (snd (c s))).

(** [c] leaves the heap as it is. *)
Definition keeps_heap {A} (c : M A) : Prop :=
  forall s, heap (snd (c s)) = heap s.

Definition is_next (e : event) : bool :=
  match e with
  | CallNext _ => true
  | _ => false
  end.



(** Whether a position ends a group of the coarsest level; with a single
    level every position is a node of its own. *)
Definition top_group_end (cls : list PageIteratorLevel) (lf : leaf) : bool :=
  match cls with
  | c0 :: c1 :: _ => is_at_final_element lf c0 c1
  | _ => true
  end.

(** The accumulator of the coarsest level is [a0], it holds [k] nodes, and
    no other accumulator is the same list object. *)
Definition coarsest_holds (n : nat) (a0 : loc) (k : nat) (to_box : list loc)
  (s : state) : Prop :=
  length to_box = n /\
  to_box !! 0 = Some a0 /\
  (forall i x, 0 < i -> to_box !! i = Some x -> a0 < x) /\
  a0 < length (heap s) /\
  length (heap s !!! a0) = k.

Definition not_next (e : event) : Prop := is_next e = false.




(** Some boxer of [self] answered a call with the error [e]. *)
Definition boxer_raised (self : MultiLevelIterator) (e : exn) : Prop :=
  exists i b h t c p, boxers self !! i = Some b /\ b h t c p = Raise e.

(** What an iteration of the loop of [nested] leaves when the level
    specification is valid: a [to_box] with one entry for each level, or an
    error that a boxer raised. *)
Definition step_safe (self : MultiLevelIterator) (r : outcome (list loc) * state)
  : Prop :=
  match fst r with
  | Ret to_box => length to_box = length (levels self)
  | Raise e => boxer_raised self e
  end.

(** A boxer that always fails. *)
Definition failing_boxer : boxer := fun _ _ _ _ => Raise (OtherError "boxer").

Definition failing_word : MultiLevelIterator :=
  mkMLI ["word"] [failing_boxer] "word" failing_boxer.

(** A session whose coarsest level is not a key of clevel_od. *)
Definition page_word : MultiLevelIterator :=
  mkMLI ["page"; "word"] (canonical_boxers 1) "word" leaf_boxer.

(** ** One turn of the loop, step by step *)




(** * Properties *)

(** ** Stepping through the monad *)

Lemma bind_Ret {A B} (c : M A) (k : A -> M B) s a s' :
  c s = (Ret a, s') -> bind c k s = k a s'.
Proof. intros H. unfold bind. now rewrite H. Qed.

Lemma bind_Raise {A B} (c : M A) (k : A -> M B) s e s' :
  c s = (Raise e, s') -> bind c k s = (Raise e, s').
Proof. intros H. unfold bind. now rewrite H. Qed.

Lemma getitem_Some {A} (l : list A) i x s :
  l !! i = Some x -> getitem l i s = (Ret x, s).
Proof. intros H. unfold getitem. now rewrite H. Qed.

Lemma od_getitem_Some {V} (od : list (string * V)) k v s :
  od_get od k = Some v -> od_getitem od k s = (Ret v, s).
Proof. intros H. unfold od_getitem. now rewrite H. Qed.

Lemma str_in_lookup (l : list string) i k :
  l !! i = Some k -> str_in k l = true.
Proof.
  intros H. unfold str_in. apply existsb_exists. exists k. split.
  - apply list_elem_of_In. eapply list_elem_of_lookup_2; eauto.
  - apply String.eqb_refl.
Qed.

(** ** get_contents *)

Lemma get_contents_eq self it level s :
  get_contents self it level s =
  match od_get clevel_od level with
  | Some cl =>
      (Ret (contents_at (current it) cl),
       mkState (heap s)
         (log s ++ [CallGetUTF8Text cl; CallGetUTF8Text cl; CallBoundingBox cl]))
  | None => (Raise (KeyError level), s)
  end.
Proof.
  unfold get_contents, od_getitem, contents_at.
  destruct (od_get clevel_od level) as [cl|]; [|reflexivity].
  unfold bind, ret, result_iterator_get_utf8_text, page_iterator_bounding_box,
    emit, bind, ret; simpl.
  destruct (bounding_box (current it) cl) as [r box]; simpl.
  now rewrite <- !app_assoc.
Qed.

(** C4: for every level, [get_contents] makes the UTF-8 text call twice, once
    for the text and once for the confidence, and the bounding-box call once;
    the text and the confidence it returns are the same value.  It raises
    KeyError for a level that [clevel_od] does not name. *)
Theorem get_contents_confidence_is_text self it level s :
  get_contents self it level s =
  match od_get clevel_od level with
  | Some cl =>
      let text := utf8_text (current it) cl in
      let confidence := text in
      (Ret (text, confidence,
            _tess_box_to_pyocr_box (snd (bounding_box (current it) cl))),
       mkState (heap s)
         (log s ++ [CallGetUTF8Text cl; CallGetUTF8Text cl; CallBoundingBox cl]))
  | None => (Raise (KeyError level), s)
  end.
Proof. apply get_contents_eq. Qed.

(** ** Construction *)

Lemma last_cons_is_Some {A} (x : A) (l : list A) : exists y, last (x :: l) = Some y.
Proof.
  revert x. induction l as [|z l IH]; intros x.
  - now exists x.
  - destruct (IH z) as [y Hy]. exists y. exact Hy.
Qed.

(** C7, as the code has it: construction from no levels raises IndexError
    (from [levels[-1]]), and so does construction from no boxers; from at
    least one level and one boxer it returns the object, whatever the levels
    are: repeated identifiers are not looked for. *)
Theorem init_checks_only_emptiness :
  (forall bxs, MultiLevelIterator_init [] bxs = Raise IndexError) /\
  (forall l lvls, MultiLevelIterator_init (l :: lvls) [] = Raise IndexError) /\
  (forall l lvls b bxs, exists bl bb,
      MultiLevelIterator_init (l :: lvls) (b :: bxs)
      = Ret (mkMLI (l :: lvls) (b :: bxs) bl bb)).
Proof.
  split; [|split].
  - reflexivity.
  - intros l lvls. unfold MultiLevelIterator_init, getitem_last.
    destruct (last_cons_is_Some l lvls) as [y ->]. reflexivity.
  - intros l lvls b bxs. unfold MultiLevelIterator_init, getitem_last.
    destruct (last_cons_is_Some l lvls) as [y ->].
    destruct (last_cons_is_Some b bxs) as [bb ->].
    now exists y, bb.
Qed.

(** C7 fails for repeated identifiers: the level "word" given twice is
    accepted. *)
Lemma init_accepts_repeated_level :
  ~ (exists e, MultiLevelIterator_init ["word"; "word"] [leaf_boxer; leaf_boxer]
               = Raise e).
Proof. intros [e H]. discriminate H. Qed.

(** ** Undeclared levels *)

Lemma is_at_beginning_undeclared self it level s :
  str_in level (levels self) = false ->
  is_at_beginning self it level s = (Raise (ValueError "Unknown level"), s).
Proof. intros H. unfold is_at_beginning. now rewrite H. Qed.

Lemma is_at_end_undeclared self it level lower_level s :
  str_in level (levels self) = false \/ str_in lower_level (levels self) = false ->
  is_at_end self it level lower_level s = (Raise (ValueError "Unknown level"), s).
Proof.
  intros H. unfold is_at_end.
  destruct H as [-> | ->]; [reflexivity|].
  now rewrite orb_true_r.
Qed.

(** C8 at the level "block", which the iterator over ["line"; "word"] does
    not declare: [is_at_beginning] and [is_at_end] raise ValueError, while
    [get_contents] returns the block's contents. *)
Theorem get_contents_undeclared_level_returns :
  fst (run (is_at_beginning line_word two_lines "block"))
    = Raise (ValueError "Unknown level") /\
  fst (run (is_at_end line_word two_lines "block" "word"))
    = Raise (ValueError "Unknown level") /\
  fst (run (get_contents line_word two_lines "block"))
    = Ret (VStr "a", VStr "a",
           VTuple [VTuple [VInt 0; VInt 0]; VTuple [VInt 1; VInt 1]]).
Proof. repeat split. Qed.

(** ** get_version *)

Lemma str_slice_to_minus_one s : str_slice_to s (-1) = str_drop_last s.
Proof.
  unfold str_slice_to, str_drop_last. simpl. f_equal. lia.
Qed.

(** C10: when "dev" does not occur in the first space-separated token, the
    token loses its last character before it is split on "." and parsed:
    "3.05.02" gives (3, 5, 0) and "3.05" gives (3, 0, 0). *)
Theorem get_version_drops_last_char :
  (forall raw_version s,
      str_find "dev" (str_before " " raw_version) = (-1)%Z ->
      get_version raw_version s
      = parse_version (str_drop_last (str_before " " raw_version)) s) /\
  fst (run (get_version "3.05.02")) = Ret (3, 5, 0)%Z /\
  fst (run (get_version "3.05")) = Ret (3, 0, 0)%Z.
Proof.
  split; [|split; reflexivity].
  intros v s H. unfold get_version. rewrite H. simpl.
  now rewrite str_slice_to_minus_one.
Qed.

Lemma get_version_drops_last_char_witness :
  str_find "dev" (str_before " " "3.05.02 extra") = (-1)%Z /\
  get_version "3.05.02 extra" empty_state = parse_version "3.05.0" empty_state.
Proof.
  split; [reflexivity|].
  exact (proj1 get_version_drops_last_char "3.05.02 extra" empty_state eq_refl).
Defined.

(** ** What a computation adds to the log *)

Lemma emits_ret {A} P (a : A) : emits P (ret a).
Proof. intros s. exists []. simpl. now rewrite app_nil_r. Qed.

Lemma emits_raise {A} P e : emits P (@raise A e).
Proof. intros s. exists []. simpl. now rewrite app_nil_r. Qed.

Lemma emits_lift {A} P (o : outcome A) : emits P (lift o).
Proof. intros s. exists []. simpl. now rewrite app_nil_r. Qed.

Lemma emits_emit (P : event -> Prop) e : P e -> emits P (emit e).
Proof. intros H s. exists [e]. simpl. split; [reflexivity|]. now constructor. Qed.

Lemma emits_bind {A B} P (c : M A) (k : A -> M B) :
  emits P c -> (forall a, emits P (k a)) -> emits P (bind c k).
Proof.
  intros Hc Hk s. unfold bind.
  destruct (Hc s) as [evs [He Hf]].
  destruct (c s) as [[a|e] s1]; simpl in *.
  - destruct (Hk a s1) as [evs' [He' Hf']].
    exists (evs ++ evs'). rewrite He', He, app_assoc. split; [reflexivity|].
    now apply Forall_app.
  - now exists evs.
Qed.

Lemma emits_try_finally {A} P (c : M A) (fin : M unit) :
  emits P c -> emits P fin -> emits P (try_finally c fin).
Proof.
  intros Hc Hf s. unfold try_finally.
  destruct (Hc s) as [evs [He Hp]].
  destruct (c s) as [r s1]; simpl in *.
  destruct (Hf s1) as [evs' [He' Hp']].
  destruct (fin s1) as [[u|e] s2]; simpl in *;
    (exists (evs ++ evs'); rewrite He', He, app_assoc; split; [reflexivity|];
     now apply Forall_app).
Qed.

Lemma emits_except {A} P (c : M A) : emits P c -> emits P (except_StopIteration c).
Proof.
  intros Hc s. unfold except_StopIteration.
  destruct (Hc s) as [evs [He Hp]].
  destruct (c s) as [[a|e] s1]; simpl in *; [now exists evs|].
  destruct e; simpl; now exists evs.
Qed.

Lemma emits_getitem {A} P (l : list A) i : emits P (getitem l i).
Proof. unfold getitem. destruct (l !! i); [apply emits_ret | apply emits_raise]. Qed.

Lemma emits_setitem {A} P (l : list A) i x : emits P (setitem l i x).
Proof. unfold setitem. destruct (decide _); [apply emits_ret | apply emits_raise]. Qed.

Lemma emits_od_getitem {V} P (od : list (string * V)) k : emits P (od_getitem od k).
Proof. unfold od_getitem. destruct (od_get od k); [apply emits_ret | apply emits_raise]. Qed.

Lemma emits_new_list P : emits P new_list.
Proof. intros s. exists []. simpl. now rewrite app_nil_r. Qed.

Lemma emits_list_append P a v : emits P (list_append a v).
Proof. intros s. exists []. simpl. now rewrite app_nil_r. Qed.

Lemma emits_new_lists P n : emits P (new_lists n).
Proof.
  induction n as [|n IH]; simpl; [apply emits_ret|].
  apply emits_bind; [apply emits_new_list|]. intros l.
  apply emits_bind; [exact IH|]. intros ls. apply emits_ret.
Qed.

Lemma emits_for_range {T} P (body : nat -> T -> M T) n :
  (forall i acc, emits P (body i acc)) ->
  forall start acc, emits P (for_range body start n acc).
Proof.
  intros Hb. induction n as [|n IH]; intros start acc; simpl; [apply emits_ret|].
  apply emits_bind; [apply Hb|]. intros acc'. apply IH.
Qed.

Ltac emits_step :=
  first
    [ apply emits_ret | apply emits_raise | apply emits_lift
    | apply emits_getitem | apply emits_setitem | apply emits_od_getitem
    | apply emits_new_list | apply emits_list_append | apply emits_new_lists
    | apply emits_emit; exact I
    | apply emits_bind; [|intros ?]
    | match goal with
      | |- emits _ (match ?x with _ => _ end) => destruct x
      end ].

Lemma emits_get_contents self it level : emits session_event (get_contents self it level).
Proof.
  unfold get_contents, result_iterator_get_utf8_text, page_iterator_bounding_box.
  repeat emits_step.
Qed.

Lemma emits_call_boxer i b x y z : emits session_event (call_boxer i b x y z).
Proof.
  unfold call_boxer. apply emits_bind; [apply emits_emit; exact I|]. intros _.
  intros s. exists []. simpl. now rewrite app_nil_r.
Qed.

Lemma emits_is_at_beginning self it level :
  emits session_event (is_at_beginning self it level).
Proof.
  unfold is_at_beginning, page_iterator_is_at_beginning_of.
  repeat emits_step.
Qed.

Lemma emits_is_at_end self it level lower_level :
  emits session_event (is_at_end self it level lower_level).
Proof.
  unfold is_at_end, page_iterator_is_at_final_element.
  repeat emits_step.
Qed.

Lemma emits_next self it : emits session_event (next self it).
Proof.
  unfold next. repeat emits_step.
Qed.

Ltac emits_session :=
  repeat first
    [ apply emits_get_contents | apply emits_call_boxer
    | apply emits_is_at_beginning | apply emits_is_at_end | apply emits_next
    | emits_step ].

Lemma emits_append_leaf self it i level b to_box :
  emits session_event (append_leaf self it i level b to_box).
Proof. unfold append_leaf. emits_session. Qed.

Lemma emits_group_boundaries self it i level b to_box :
  emits session_event (group_boundaries self it i level b to_box).
Proof. unfold group_boundaries. emits_session. Qed.

Lemma emits_nested_iter self it i to_box :
  emits session_event (nested_iter self it i to_box).
Proof.
  unfold nested_iter. do 2 (apply emits_bind; [emits_step|intros ?]).
  destruct (String.eqb _ _);
    [apply emits_append_leaf | apply emits_group_boundaries].
Qed.

Lemma emits_nested_loop self blank ls :
  forall to_box, emits session_event (nested_loop self blank ls to_box).
Proof.
  induction ls as [|lf ls IH]; intros to_box; simpl.
  - apply emits_bind.
    + apply emits_for_range. intros. apply emits_nested_iter.
    + intros tb. apply emits_bind; [apply emits_except, emits_next|].
      intros [r|]; apply emits_ret.
  - apply emits_bind.
    + apply emits_for_range. intros. apply emits_nested_iter.
    + intros tb. apply emits_bind; [apply emits_except, emits_next|].
      intros [r|]; [apply IH | apply emits_ret].
Qed.

Lemma emits_nested self it : emits session_event (nested self it).
Proof.
  unfold nested. apply emits_bind; [emits_step|intros ?].
  apply emits_bind; [apply emits_nested_loop|intros ?]. repeat emits_step.
Qed.

Lemma emits_weaken {A} (P Q : event -> Prop) (c : M A) :
  (forall e, P e -> Q e) -> emits P c -> emits Q c.
Proof.
  intros HPQ Hc s. destruct (Hc s) as [evs [He Hp]].
  exists evs. split; [exact He|]. eapply Forall_impl; eauto.
Qed.

(** ** image_to_string *)

Lemma emits_raw_call {A} (P : event -> Prop) e (o : outcome A) :
  P e -> emits P (raw_call e o).
Proof.
  intros H. unfold raw_call. apply emits_bind; [now apply emits_emit|].
  intros _. apply emits_lift.
Qed.

(** C9: once [init] has returned a handle, every run of [image_to_string]
    calls [cleanup] on that handle exactly once, as the last call it makes,
    whatever the calls in between and the grouping traversal do, and whether
    the run returns or raises. *)
Theorem image_to_string_cleans_up_once tr bm image lang bld h s :
  raw_init tr lang = Ret h ->
  exists r s' mid,
    image_to_string tr bm image lang bld s = (r, s') /\
    log s' = log s ++ [CallInit lang] ++ mid ++ [CallCleanup h] /\
    Forall not_init_or_cleanup mid.
Proof.
  intros Hinit. unfold image_to_string.
  set (b := match bld with None => TextBuilder bm | Some b => b end).
  unfold bind at 1. unfold raw_call at 1, bind at 1, emit, lift. simpl.
  rewrite Hinit.
  match goal with |- context [try_finally ?body ?fin] => set (c := body) end.
  assert (Hc : emits not_init_or_cleanup c).
  { subst c.
    apply emits_bind; [now apply emits_raw_call|]. intros _.
    apply emits_bind; [now apply emits_raw_call|]. intros _.
    apply emits_bind; [now apply emits_raw_call|]. intros _.
    apply emits_bind; [now apply emits_raw_call|]. intros [res|]; [|apply emits_raise].
    apply emits_bind; [now apply emits_raw_call|]. intros page.
    apply emits_bind; [apply emits_lift|]. intros mli.
    apply emits_bind; [|intros; apply emits_ret].
    eapply emits_weaken; [|apply emits_nested].
    intros e. now destruct e. }
  unfold try_finally.
  specialize (Hc (mkState (heap s) (log s ++ [CallInit lang]))).
  destruct Hc as [mid [Hlog Hmid]].
  destruct (c _) as [r s1]. simpl in Hlog.
  unfold raw_call, bind, emit, lift. simpl.
  destruct (raw_cleanup tr h) as [u|e].
  - eexists _, _, mid. split; [reflexivity|]. simpl. split; [|exact Hmid].
    rewrite Hlog. now rewrite <- !app_assoc.
  - eexists _, _, mid. split; [reflexivity|]. simpl. split; [|exact Hmid].
    rewrite Hlog. now rewrite <- !app_assoc.
Qed.

Lemma image_to_string_cleans_up_once_witness :
  raw_init sample_raw None = Ret 7 /\
  exists r s' mid,
    image_to_string sample_raw sample_builders VNone None None empty_state = (r, s') /\
    log s' = log empty_state ++ [CallInit None] ++ mid ++ [CallCleanup 7] /\
    Forall not_init_or_cleanup mid.
Proof.
  split; [reflexivity|].
  exact (image_to_string_cleans_up_once sample_raw sample_builders VNone None None
           7 empty_state eq_refl).
Defined.

(** ** One turn of the loop at the base level *)

Lemma append_leaf_eq self it i level b to_box s a cl node :
  to_box !! i = Some a ->
  od_get clevel_od level = Some cl ->
  (let '(t, c, p) := contents_at (current it) cl in
   b (heap s) t c p = Ret node) ->
  append_leaf self it i level b to_box s =
  (Ret to_box,
   mkState (alter (fun xs => xs ++ [node]) a (heap s))
           (log s ++ leaf_calls i cl (current it))).
Proof.
  intros Ha Hcl Hb. unfold append_leaf.
  rewrite (bind_Ret _ _ _ _ _ (getitem_Some _ _ _ _ Ha)).
  unfold bind at 1. rewrite get_contents_eq, Hcl.
  unfold leaf_calls. destruct (contents_at (current it) cl) as [[t c] p].
  unfold bind, call_boxer, bind, emit, list_append, ret. simpl.
  rewrite Hb. simpl. now rewrite <- app_assoc.
Qed.

Lemma append_leaf_outcome self it i level b to_box s a cl :
  to_box !! i = Some a ->
  od_get clevel_od level = Some cl ->
  append_leaf self it i level b to_box s =
  let '(t, c, p) := contents_at (current it) cl in
  match b (heap s) t c p with
  | Ret node =>
      (Ret to_box,
       mkState (alter (fun xs => xs ++ [node]) a (heap s))
               (log s ++ leaf_calls i cl (current it)))
  | Raise e => (Raise e, mkState (heap s) (log s ++ leaf_calls i cl (current it)))
  end.
Proof.
  intros Ha Hcl. unfold append_leaf.
  rewrite (bind_Ret _ _ _ _ _ (getitem_Some _ _ _ _ Ha)).
  unfold bind at 1. rewrite get_contents_eq, Hcl.
  unfold leaf_calls. destruct (contents_at (current it) cl) as [[t c] p].
  unfold bind, call_boxer, bind, emit, list_append, ret. simpl.
  destruct (b (heap s) t c p); simpl; now rewrite <- app_assoc.
Qed.

Lemma next_eq self blank ls s cl :
  od_get clevel_od (base_level self) = Some cl ->
  except_StopIteration (next self (mkIter ls blank)) s =
  (Ret (match ls with
        | _ :: (_ :: _) as r => Some (mkIter r blank)
        | _ => None
        end),
   mkState (heap s) (log s ++ [CallNext cl])).
Proof.
  intros Hcl. unfold except_StopIteration, next, bind, od_getitem.
  rewrite Hcl. unfold ret, emit, page_iterator_next. simpl.
  destruct ls as [|x [|y ls]]; reflexivity.
Qed.

(** ** Allocation *)

Lemma new_lists_eq n : forall s,
  new_lists n s =
  (Ret (seq (length (heap s)) n), mkState (heap s ++ replicate n []) (log s)).
Proof.
  induction n as [|n IH]; intros s; simpl.
  - unfold ret. rewrite app_nil_r. now destruct s.
  - unfold bind at 1. unfold new_list at 1.
    unfold bind at 1. rewrite IH. unfold ret. simpl.
    rewrite length_app. simpl. rewrite Nat.add_1_r.
    now rewrite <- app_assoc.
Qed.

Lemma alter_fresh (h : list (list value)) (xs : list value) :
  alter (fun ys => ys ++ xs) (length h) (h ++ [[]]) = h ++ [xs].
Proof.
  induction h as [|y h IH]; simpl; [reflexivity|].
  f_equal. exact IH.
Qed.

(** ** A single level *)

Section SingleLevel.
Variables (l : string) (cl : PageIteratorLevel) (b : boxer).
Variable f : value -> value -> value -> value.
Hypothesis Hcl : od_get clevel_od l = Some cl.
Hypothesis Hb : forall h t c p, b h t c p = Ret (f t c p).

Let self := mkMLI [l] [b] l b.

Lemma single_body it a s :
nested_body self it [a] s =
(Ret [a],
 mkState (alter (fun xs => xs ++ [boxed_leaf f cl (current it)]) a (heap s))
         (log s ++ leaf_calls 0 cl (current it))).
Proof.
unfold nested_body, self. simpl. unfold bind at 1. unfold nested_iter.
unfold bind at 1. simpl. unfold bind at 1. simpl.
rewrite String.eqb_refl.
rewrite (append_leaf_eq _ it 0 l b [a] s a cl (boxed_leaf f cl (current it)));
  [reflexivity|reflexivity|exact Hcl|].
unfold boxed_leaf. destruct (contents_at (current it) cl) as [[t c] p]. apply Hb.
Qed.

Lemma single_loop blank ls : forall lf a s,
nested_loop self blank (lf :: ls) [a] s =
(Ret [a],
 mkState (alter (fun xs => xs ++ map (boxed_leaf f cl) (lf :: ls)) a (heap s))
         (log s ++ flat_map (fun x => leaf_calls 0 cl x ++ [CallNext cl]) (lf :: ls))).
Proof.
induction ls as [|lf' ls IH]; intros lf a s.
- simpl. unfold bind at 1. rewrite single_body.
  unfold bind at 1. rewrite (next_eq self blank [lf] _ cl Hcl).
  unfold ret. simpl. unfold current. simpl.
  rewrite <- app_assoc. reflexivity.
- change (nested_loop self blank (lf :: lf' :: ls) [a] s)
    with ((to_box <- nested_body self (mkIter (lf :: lf' :: ls) blank) [a] ;;
           r <- except_StopIteration (next self (mkIter (lf :: lf' :: ls) blank)) ;;
           match r with
           | Some _ => nested_loop self blank (lf' :: ls) to_box
           | None => ret to_box
           end) s).
  unfold bind at 1. rewrite single_body.
  unfold bind at 1. rewrite (next_eq self blank _ _ cl Hcl).
  rewrite IH. simpl heap. simpl log. unfold current. simpl hd.
  f_equal. f_equal.
  + rewrite list_alter_alter_eq. apply list_alter_ext; [|reflexivity].
    intros xs _. simpl. now rewrite <- app_assoc.
  + change (flat_map ?g (lf :: ?r)) with (g lf ++ flat_map g r).
    now rewrite <- !app_assoc.
Qed.


Lemma single_nested blank lf ls s :
nested self (mkIter (lf :: ls) blank) s =
(Ret (VList (length (heap s))),
 mkState (heap s ++ [map (boxed_leaf f cl) (lf :: ls)])
         (log s ++ flat_map (fun x => leaf_calls 0 cl x ++ [CallNext cl]) (lf :: ls))).
Proof.
unfold nested. erewrite bind_Ret by apply new_lists_eq.
simpl remaining. simpl exhausted. simpl seq.
erewrite bind_Ret by apply single_loop.
unfold bind, getitem, ret. simpl. now rewrite alter_fresh.
Qed.


Lemma leaf_calls_no_boundary_query i x :
forallb (fun e => negb (boundary_query e)) (leaf_calls i cl x ++ [CallNext cl]) = true.
Proof.
unfold leaf_calls. now destruct (contents_at x cl) as [[t c] p].
Qed.
End SingleLevel.

(** C6, as the code has it: on a cursor with at least one leaf, an iterator
    with the single level [l] and a boxer computing [f] returns a new list
    holding [f] of the contents of each leaf, in the order visited, and none
    of the calls it makes is a boundary query. *)
Theorem nested_single_level l cl b f blank lf ls s :
  od_get clevel_od l = Some cl ->
  (forall h t c p, b h t c p = Ret (f t c p)) ->
  exists evs,
    nested (mkMLI [l] [b] l b) (mkIter (lf :: ls) blank) s =
      (Ret (VList (length (heap s))),
       mkState (heap s ++ [map (boxed_leaf f cl) (lf :: ls)]) (log s ++ evs)) /\
    forallb (fun e => negb (boundary_query e)) evs = true.
Proof.
  intros Hcl Hb. eexists. split.
  - apply (single_nested l cl b f Hcl Hb).
  - rewrite forallb_forall. intros e He. apply in_flat_map in He.
    destruct He as [x [_ He]].
    pose proof (leaf_calls_no_boundary_query cl 0 x) as H.
    rewrite forallb_forall in H. now apply H.
Qed.

Lemma nested_single_level_witness :
  od_get clevel_od "word" = Some WORD /\
  (forall h t c p, leaf_boxer h t c p = Ret (word_tuple t c p)) /\
  exists evs,
    nested single_word two_lines empty_state =
      (Ret (VList 0),
       mkState [map (boxed_leaf word_tuple WORD) (remaining two_lines)] evs) /\
    forallb (fun e => negb (boundary_query e)) evs = true.
Proof.
  split; [reflexivity|]. split; [reflexivity|].
  exact (nested_single_level "word" WORD leaf_boxer word_tuple nowhere _ _
           empty_state eq_refl (fun _ _ _ _ => eq_refl)).
Defined.

(** C6 fails on a cursor with no leaves: the result is not the empty
    sequence of boxed leaves but one node, made of what the backend reads
    when it is positioned on nothing. *)
Lemma nested_single_level_no_leaves :
  returned_list (run (nested single_word no_leaves))
  <> Some (map (boxed_leaf word_tuple WORD) (remaining no_leaves)).
Proof. vm_compute. discriminate. Qed.

(** ** The steps of one turn *)

Lemma str_in_true_iff k l : str_in k l = true <-> k ∈ l.
Proof.
  unfold str_in. rewrite existsb_exists. split.
  - intros [x [Hx He]]. apply String.eqb_eq in He. subst. now apply list_elem_of_In.
  - intros H. exists k. split; [now apply list_elem_of_In | apply String.eqb_refl].
Qed.

Lemma distinct_NoDup l : distinct l = true -> NoDup l.
Proof.
  induction l as [|x l IH]; simpl; intros H; [constructor|].
  apply andb_true_iff in H. destruct H as [Hx Hl].
  constructor; [|now apply IH].
  intros Hin. apply str_in_true_iff in Hin. now rewrite Hin in Hx.
Qed.

Lemma for_range_ext {T} (f g : nat -> T -> M T) n : forall start acc s,
  (forall i acc' s', start <= i < start + n -> f i acc' s' = g i acc' s') ->
  for_range f start n acc s = for_range g start n acc s.
Proof.
  induction n as [|n IH]; intros start acc s H; simpl; [reflexivity|].
  unfold bind. rewrite H by lia.
  destruct (g start acc s) as [[acc'|e] s']; [|reflexivity].
  apply IH. intros i acc'' s'' Hi. apply H. lia.
Qed.

Lemma for_range_snoc {T} (f : nat -> T -> M T) n : forall start acc s,
  for_range f start (n + 1) acc s =
  (acc' <- for_range f start n acc ;; f (start + n) acc') s.
Proof.
  induction n as [|n IH]; intros start acc s; simpl.
  - unfold bind, ret. rewrite Nat.add_0_r.
    destruct (f start acc s) as [[acc'|e] s']; reflexivity.
  - unfold bind.
    destruct (f start acc s) as [[acc'|e] s']; [|reflexivity].
    rewrite IH. unfold bind. now replace (S start + n) with (start + S n) by lia.
Qed.

Lemma nested_iter_coarse self it i to_box s :
  distinct (levels self) = true ->
  last (levels self) = Some (base_level self) ->
  i < length (levels self) - 1 ->
  nested_iter self it i to_box s = coarse_step self it i to_box s.
Proof.
  intros Hd Hl Hi. unfold nested_iter, coarse_step.
  destruct (levels self !! i) as [level|] eqn:Hlv.
  - rewrite !(bind_Ret _ _ _ _ _ (getitem_Some _ _ _ _ Hlv)).
    unfold bind. destruct (getitem (boxers self) i s) as [[b|e] s']; [|reflexivity].
    destruct (String.eqb_spec level (base_level self)) as [Heq|Hne]; [|reflexivity].
    exfalso. subst level. rewrite last_lookup in Hl.
    pose proof (NoDup_lookup _ _ _ _ (distinct_NoDup _ Hd) Hlv Hl). lia.
  - unfold bind, getitem. now rewrite Hlv.
Qed.

Lemma nested_iter_base self it to_box s :
  last (levels self) = Some (base_level self) ->
  nested_iter self it (length (levels self) - 1) to_box s
  = base_step self it (length (levels self) - 1) to_box s.
Proof.
  intros Hl. unfold nested_iter, base_step. rewrite last_lookup in Hl.
  replace (Init.Nat.pred (length (levels self))) with (length (levels self) - 1) in Hl by lia.
  rewrite !(bind_Ret _ _ _ _ _ (getitem_Some _ _ _ _ Hl)).
  unfold bind. destruct (getitem (boxers self) _ s) as [[b|e] s']; [|reflexivity].
  now rewrite String.eqb_refl.
Qed.

Lemma nested_body_split self it to_box s :
  distinct (levels self) = true ->
  last (levels self) = Some (base_level self) ->
  nested_body self it to_box s = coarse_then_base self it to_box s.
Proof.
  intros Hd Hl.
  unfold nested_body, coarse_then_base.
  assert (Hn : length (levels self) = (length (levels self) - 1) + 1).
  { destruct (levels self); [discriminate Hl | simpl; lia]. }
  rewrite Hn at 1. rewrite for_range_snoc. simpl.
  unfold bind.
  rewrite (for_range_ext (nested_iter self it) (coarse_step self it)).
  - destruct (for_range (coarse_step self it) 0 _ to_box s) as [[tb|e] s']; [|reflexivity].
    now apply nested_iter_base.
  - intros i acc s' Hi. apply nested_iter_coarse; auto. lia.
Qed.


(** ** The group-start and group-end checks *)

Lemma is_at_beginning_eq self it level cl s :
  str_in level (levels self) = true ->
  od_get clevel_od level = Some cl ->
  is_at_beginning self it level s =
  (Ret (is_at_beginning_of (current it) cl),
   mkState (heap s) (log s ++ [CallIsAtBeginningOf cl])).
Proof.
  intros Hin Hcl. unfold is_at_beginning. rewrite Hin. simpl.
  rewrite (bind_Ret _ _ _ _ _ (od_getitem_Some _ _ _ _ Hcl)).
  reflexivity.
Qed.

Lemma is_at_end_eq self it level lower cl cl' s :
  str_in level (levels self) = true ->
  str_in lower (levels self) = true ->
  od_get clevel_od level = Some cl ->
  od_get clevel_od lower = Some cl' ->
  is_at_end self it level lower s =
  (Ret (is_at_final_element (current it) cl cl'),
   mkState (heap s) (log s ++ [CallIsAtFinalElement cl cl'])).
Proof.
  intros Hin Hin' Hcl Hcl'. unfold is_at_end. rewrite Hin, Hin'. simpl.
  rewrite (bind_Ret _ _ _ _ _ (od_getitem_Some _ _ _ _ Hcl)).
  rewrite (bind_Ret _ _ _ _ _ (od_getitem_Some _ _ _ _ Hcl')).
  reflexivity.
Qed.

Lemma start_check_eq (starts : bool) i (to_box : list loc) s :
  i + 1 < length to_box ->
  (if starts then (l <- new_list ;; setitem to_box (i + 1) l) else ret to_box) s =
  (Ret (fst (after_start_check starts i to_box (heap s))),
   mkState (snd (after_start_check starts i to_box (heap s))) (log s)).
Proof.
  intros Hi. destruct starts; simpl.
  - unfold bind, new_list, setitem. simpl.
    destruct (decide (i + 1 < length to_box)); [reflexivity | lia].
  - unfold ret. now destruct s.
Qed.

Lemma group_boundaries_eq self it i level lower b to_box s cl cl' acc child0 :
  levels self !! (i + 1) = Some lower ->
  str_in level (levels self) = true ->
  od_get clevel_od level = Some cl ->
  od_get clevel_od lower = Some cl' ->
  to_box !! i = Some acc ->
  to_box !! (i + 1) = Some child0 ->
  let lf := current it in
  let starts := is_at_beginning_of lf cl in
  let children := if starts then length (heap s) else child0 in
  let to_box' := fst (after_start_check starts i to_box (heap s)) in
  let heap' := snd (after_start_check starts i to_box (heap s)) in
  let queries := [CallIsAtBeginningOf cl; CallIsAtFinalElement cl cl'] in
  group_boundaries self it i level b to_box s =
  if is_at_final_element lf cl cl' then
    let '(t, c, p) := contents_at lf cl in
    let evs := queries ++ [CallGetUTF8Text cl; CallGetUTF8Text cl; CallBoundingBox cl;
                           CallBoxer i (VList children) c p] in
    match b heap' (VList children) c p with
    | Ret node =>
        (Ret to_box',
         mkState (alter (fun xs => xs ++ [node]) acc heap') (log s ++ evs))
    | Raise e => (Raise e, mkState heap' (log s ++ evs))
    end
  else (Ret to_box', mkState heap' (log s ++ queries)).
Proof.
  intros Hlow Hin Hcl Hcl' Hacc Hch lf starts children to_box' heap' queries.
  assert (Hin' : str_in lower (levels self) = true) by (eapply str_in_lookup; eauto).
  assert (Hlen : i + 1 < length to_box) by (eapply lookup_lt_Some; eauto).
  unfold group_boundaries.
  rewrite (bind_Ret _ _ _ _ _ (getitem_Some _ _ _ _ Hlow)).
  erewrite bind_Ret by (apply is_at_beginning_eq; eauto).
  erewrite bind_Ret by (apply start_check_eq; simpl; exact Hlen).
  simpl heap. simpl log.
  erewrite bind_Ret by (apply is_at_end_eq; eauto).
  fold lf starts to_box' heap'. simpl heap. simpl log.
  destruct (is_at_final_element lf cl cl').
  - unfold bind at 1. rewrite get_contents_eq, Hcl. fold lf.
    destruct (contents_at lf cl) as [[t c] p]. simpl heap. simpl log.
    assert (Hacc' : to_box' !! i = Some acc).
    { subst to_box'. unfold after_start_check. destruct starts; simpl; [|exact Hacc].
      rewrite list_lookup_insert_ne by lia. exact Hacc. }
    assert (Hch' : to_box' !! (i + 1) = Some children).
    { subst to_box' children. unfold after_start_check. destruct starts; simpl; [|exact Hch].
      now rewrite list_lookup_insert_eq by exact Hlen. }
    rewrite (bind_Ret _ _ _ _ _ (getitem_Some _ _ _ _ Hacc')).
    rewrite (bind_Ret _ _ _ _ _ (getitem_Some _ _ _ _ Hch')).
    unfold bind, call_boxer, bind, emit, list_append, ret. simpl.
    destruct (b heap' (VList children) c p) as [node|e]; simpl;
      rewrite <- !app_assoc; reflexivity.
  - unfold ret. simpl. now rewrite <- app_assoc.
Qed.



(** ** Reading trees in a changing heap *)

Lemma lookup_total_alloc (h : list (list value)) l : (h ++ [[]]) !!! l = h !!! l.
Proof.
  rewrite !list_lookup_total_alt.
  destruct (decide (l < length h)) as [Hl|Hl].
  - now rewrite lookup_app_l.
  - rewrite (lookup_ge_None_2 h) by lia.
    destruct (decide (l = length h)) as [->|Hne].
    + rewrite list_lookup_middle by reflexivity. reflexivity.
    + rewrite lookup_ge_None_2; [reflexivity|]. rewrite length_app. simpl. lia.
Qed.

Lemma bounded_walk_frame h h' lo hi d : forall v,
  (forall l, lo < l < hi -> h' !!! l = h !!! l) ->
  bounded h lo hi d v ->
  bounded h' lo hi d v /\ walk h' d v = walk h d v.
Proof.
  induction d as [|d IH]; intros v Hfr Hb; simpl in *; [split; auto|].
  destruct (group_children v) as [l|]; [|split; auto].
  destruct Hb as [Hl Hall]. rewrite (Hfr l Hl).
  assert (Hboth : Forall (fun v' => bounded h' lo hi d v' /\ walk h' d v' = walk h d v')
                         (h !!! l)).
  { eapply Forall_impl; [exact Hall|]. intros v' Hv'. now apply IH. }
  split; [split; [exact Hl|]|].
  - eapply Forall_impl; [exact Hboth|]. now intros v' [? _].
  - clear -Hboth. induction Hboth as [|v' vs [_ Hw] _ IHvs]; simpl; [reflexivity|].
    now rewrite Hw, IHvs.
Qed.

Lemma bounded_widen h lo hi lo' hi' d : forall v,
  lo' <= lo -> hi <= hi' -> bounded h lo hi d v -> bounded h lo' hi' d v.
Proof.
  induction d as [|d IH]; intros v Hlo Hhi Hb; simpl in *; [exact I|].
  destruct (group_children v) as [l|]; [|exact I].
  destruct Hb as [Hl Hall]. split; [lia|].
  eapply Forall_impl; [exact Hall|]. intros v' Hv'. now apply IH.
Qed.

Lemma Forall_bounded_frame h h' lo hi d vs :
  (forall l, lo < l < hi -> h' !!! l = h !!! l) ->
  Forall (bounded h lo hi d) vs ->
  Forall (bounded h' lo hi d) vs /\ flat_map (walk h' d) vs = flat_map (walk h d) vs.
Proof.
  intros Hfr Hall. induction Hall as [|v vs Hv _ [IH1 IH2]]; simpl; [split; auto|].
  destruct (bounded_walk_frame h h' lo hi d v Hfr Hv) as [Hb Hw].
  split; [now constructor | now rewrite Hw, IH2].
Qed.

(** ** The accumulators across one turn *)

Lemma flat_map_singleton {A} (l : list A) : flat_map (fun x => [x]) l = l.
Proof. induction l as [|x l IH]; simpl; [reflexivity | now rewrite IH]. Qed.

Lemma accumulated_frame : forall rest h h' a cls done,
  length h <= length h' ->
  (forall l, a <= l -> h' !!! l = h !!! l) ->
  accumulated h a rest cls done -> accumulated h' a rest cls done.
Proof.
  induction rest as [|a' rest IH]; intros h h' a cls done Hlen Hfr Hacc;
    cbn [accumulated] in *; destruct Hacc as [Ha Hacc];
    (split; [lia|]); destruct cls as [|c cls]; try contradiction.
  - rewrite Hfr by lia. exact Hacc.
  - destruct Hacc as [Hl Hacc]. split; [exact Hl|].
    destruct c.
    + destruct Hacc as [Hw Hb].
      destruct (Forall_bounded_frame h h' a (length h) (length (a' :: rest)) (h !!! a))
        as [Hb' Hw']; [intros l Hl'; apply Hfr; lia | exact Hb |].
      unfold walk_list. rewrite Hfr by lia. split; [now rewrite Hw'|].
      eapply Forall_impl; [exact Hb'|]. intros v Hv.
      eapply bounded_widen; [| |exact Hv]; lia.
    + destruct Hacc as [Hlt [Hb [done2 [Hd Hrec]]]].
      destruct (Forall_bounded_frame h h' a a' (length (a' :: rest)) (h !!! a))
        as [Hb' Hw']; [intros l Hl'; apply Hfr; lia | exact Hb |].
      split; [exact Hlt|]. rewrite Hfr by lia. split; [exact Hb'|].
      exists done2. unfold walk_list. rewrite Hfr by lia. rewrite Hw'. split; [exact Hd|].
      eapply IH; [exact Hlen| |exact Hrec]. intros l Hl'. apply Hfr. lia.
Qed.

Lemma accumulated_closed h a rest cls done :
  accumulated h a rest cls done ->
  hd true cls = true ->
  walk_list h (length rest) a = done /\
  Forall (bounded h a (length h) (length rest)) (h !!! a).
Proof.
  intros Hacc Hc.
  destruct rest as [|a' rest]; cbn [accumulated] in Hacc; destruct Hacc as [Ha Hacc];
    destruct cls as [|c cls]; try contradiction.
  - unfold walk_list. simpl. rewrite flat_map_singleton. split; [exact Hacc|].
    apply Forall_forall. intros; exact I.
  - simpl in Hc. subst c. tauto.
Qed.

Lemma accumulated_fresh h a rest cls :
  a < length h -> h !!! a = [] -> length rest = length cls ->
  forallb id cls = true ->
  accumulated h a rest cls [].
Proof.
  intros Ha He Hl Hc.
  destruct rest as [|a' rest], cls as [|c cls]; try discriminate;
    cbn [accumulated]; (split; [exact Ha|]); [exact He|].
  simpl in Hc. apply andb_true_iff in Hc. destruct Hc as [Hc _]. unfold id in Hc. subst c.
  split; [simpl in Hl; lia|]. unfold walk_list. rewrite He. simpl. split; [reflexivity|constructor].
Qed.

Lemma sweep_length : forall fl leafv rest a h,
  length (snd (sweep fl leafv a rest h)) >= length h /\
  length (fst (sweep fl leafv a rest h)) = length rest.
Proof.
  induction fl as [|b fl IH]; intros leafv rest a h.
  - destruct rest; simpl; rewrite length_alter; lia.
  - destruct rest as [|a' rest]; simpl; [rewrite length_alter; lia|].
    match goal with |- context [sweep fl leafv ?x rest ?y] =>
      specialize (IH leafv rest x y); destruct (sweep fl leafv x rest y) as [r h3] end.
    simpl in *. destruct IH as [IH1 IH2]. split; [|lia].
    destruct (starts b), (ends b); rewrite ?length_alter, ?length_app in IH1; simpl in IH1; lia.
Qed.

Lemma nesting_cons b bs : nesting (b :: bs) = true ->
  (b = true -> forallb id bs = true) /\ nesting bs = true.
Proof.
  simpl. intros H. apply andb_true_iff in H. destruct H as [H1 H2].
  split; [|exact H2]. intros ->. exact H1.
Qed.

Lemma forallb_id_hd bs : forallb id bs = true -> hd true bs = true.
Proof. destruct bs as [|b bs]; simpl; [reflexivity|]. intros H. apply andb_true_iff in H. apply H. Qed.

Lemma sweep_accumulated : forall rest fl leafv a cls done h,
  accumulated h a rest cls done ->
  map starts fl = cls ->
  nesting cls = true ->
  nesting (map ends fl) = true ->
  accumulated (snd (sweep fl leafv a rest h)) a (fst (sweep fl leafv a rest h))
    (map ends fl) (done ++ [leafv]) /\
  (forall l, l < a -> snd (sweep fl leafv a rest h) !!! l = h !!! l).
Proof.
  induction rest as [|a' rest IH]; intros fl leafv a cls done h Hacc Hst Hncl Hnen.
  - cbn [accumulated] in Hacc.
    destruct Hacc as [Ha Hacc]. destruct cls as [|c cls]; [|contradiction].
    destruct fl as [|b fl]; [|discriminate Hst]. simpl.
    split; [split; [now rewrite length_alter|]|].
    + rewrite list_lookup_total_alter_eq by exact Ha. now rewrite Hacc.
    + intros l Hl. apply list_lookup_total_alter_ne. lia.
  - cbn [accumulated] in Hacc.
    pose proof Hacc as [Ha Hacc']. destruct cls as [|c cls]; [contradiction|].
    destruct fl as [|b fl]; [discriminate Hst|].
    simpl in Hst. injection Hst as Hb Hst.
    destruct (nesting_cons _ _ Hncl) as [Hcl_all Hncl'].
    destruct (nesting_cons _ _ Hnen) as [Hen_all Hnen'].
    destruct Hacc' as [Hlen Hacc'].
    cbn [sweep].
    set (a1 := if starts b then length h else a').
    set (h1 := if starts b then h ++ [[]] else h).
    set (h2 := if ends b
               then alter (fun xs => xs ++ [VTuple [VList a1; group_box b]]) a h1
               else h1).
    assert (Hh1 : forall l, h1 !!! l = h !!! l).
    { intros l. subst h1. destruct (starts b); [apply lookup_total_alloc | reflexivity]. }
    assert (Hlen1 : length h <= length h1).
    { subst h1. destruct (starts b); [rewrite length_app; simpl|]; lia. }
    assert (Hh2 : forall l, l <> a -> h2 !!! l = h !!! l).
    { intros l Hl. subst h2. destruct (ends b); [|apply Hh1].
      rewrite list_lookup_total_alter_ne by lia. apply Hh1. }
    assert (Hlen2 : length h2 = length h1).
    { subst h2. destruct (ends b); [apply length_alter | reflexivity]. }
    assert (Hh2a : h2 !!! a =
                   if ends b then h !!! a ++ [VTuple [VList a1; group_box b]] else h !!! a).
    { subst h2. destruct (ends b); [|apply Hh1].
      rewrite list_lookup_total_alter_eq by lia. now rewrite Hh1. }
    assert (Hrec : exists done2,
               accumulated h2 a1 rest cls done2 /\ a < a1 /\
               done = walk_list h (length (a' :: rest)) a ++ done2 /\
               Forall (bounded h a a1 (length (a' :: rest))) (h !!! a) /\
               a1 < length h2).
    { destruct c.
      - (* the group of this level was closed: a new accumulator *)
        assert (Ea1 : a1 = length h) by (subst a1; now rewrite Hb).
        assert (El1 : length h1 = S (length h)).
        { subst h1. rewrite Hb, length_app. simpl. lia. }
        destruct Hacc' as [Hw Hbd]. exists []. split; [|split; [lia|split; [|split]]].
        + apply accumulated_fresh; [lia| | exact Hlen | now apply Hcl_all].
          rewrite Hh2 by lia. rewrite list_lookup_total_alt, lookup_ge_None_2 by lia.
          reflexivity.
        + now rewrite app_nil_r.
        + now rewrite Ea1.
        + lia.
      - (* the group is open: the accumulator goes on *)
        assert (Ea1 : a1 = a') by (subst a1; now rewrite Hb).
        destruct Hacc' as [Hlt [Hbd [done2 [Hd Hrec]]]]. exists done2.
        rewrite Ea1.
        split; [|split; [exact Hlt|split; [exact Hd|split; [exact Hbd|]]]].
        + eapply accumulated_frame; [| |exact Hrec]; [lia|].
          intros l Hl. apply Hh2. lia.
        + assert (a' < length h); [|lia].
          destruct rest; cbn [accumulated] in Hrec; apply Hrec. }
    destruct Hrec as [done2 [Hacc2 [Hlt [Hd [Hbd Ha1]]]]].
    specialize (IH fl leafv a1 cls done2 h2 Hacc2 Hst Hncl' Hnen').
    pose proof (sweep_length fl leafv rest a1 h2) as [Hlen3 Hlenr].
    destruct (sweep fl leafv a1 rest h2) as [rest' h3].
    cbn [fst snd] in *.
    destruct IH as [IH Hfr].
    assert (Hh3 : forall l, l < a1 -> l <> a -> h3 !!! l = h !!! l).
    { intros l Hl Hne. rewrite Hfr by exact Hl. now apply Hh2. }
    assert (Hh3a : h3 !!! a =
                   if ends b then h !!! a ++ [VTuple [VList a1; group_box b]] else h !!! a).
    { rewrite Hfr by exact Hlt. exact Hh2a. }
    destruct (Forall_bounded_frame h h3 a a1 (S (length rest)) (h !!! a)) as [Hbd3 Hw3];
      [intros l Hl; apply Hh3; lia | exact Hbd |].
    split.
    + assert (Hlfl : length fl = length cls) by (rewrite <- Hst; now rewrite length_map).
      cbn [accumulated map]. split; [lia|]. split; [rewrite length_map; lia|].
      cbn [length] in *. rewrite Hlenr.
      destruct (ends b) eqn:He.
      * (* the position ends the group: its node goes into [a] *)
        destruct (accumulated_closed _ _ _ _ _ IH) as [Hw Hcl].
        { apply forallb_id_hd. now apply Hen_all. }
        rewrite Hh3a. unfold walk_list. rewrite Hh3a. rewrite flat_map_app, Hw3.
        split.
        -- simpl. rewrite app_nil_r. unfold walk_list in Hw, Hd.
           rewrite Hlenr in Hw. rewrite Hw. rewrite Hd. now rewrite <- app_assoc.
        -- apply Forall_app. split.
           ++ eapply Forall_impl; [exact Hbd3|]. intros v Hv.
              eapply bounded_widen; [| |exact Hv]; lia.
           ++ constructor; [|constructor]. simpl. split; [lia|].
              rewrite Hlenr in Hcl.
              eapply Forall_impl; [exact Hcl|]. intros v Hv.
              eapply bounded_widen; [| |exact Hv]; lia.
      * rewrite Hh3a. split; [exact Hlt|]. split; [exact Hbd3|].
        exists (done2 ++ [leafv]). unfold walk_list. rewrite Hh3a, Hw3.
        split; [|exact IH]. rewrite Hd. unfold walk_list. now rewrite <- app_assoc.
    + intros l Hl. apply Hh3; lia.
Qed.


(** ** The loop and its effect on the heap *)

Lemma yields_bind {A B} (c : M A) (k : A -> M B) s x h y h' :
  yields c s x h ->
  (forall s', heap s' = h -> yields (k x) s' y h') ->
  yields (bind c k) s y h'.
Proof.
  intros [evs Hc] Hk.
  destruct (Hk (mkState h (log s ++ evs)) eq_refl) as [evs' Hk'].
  exists (evs ++ evs'). unfold bind. rewrite Hc, Hk'. simpl. now rewrite app_assoc.
Qed.

Lemma yields_ret {A} (x : A) s : yields (ret x) s x (heap s).
Proof. exists []. unfold ret. rewrite app_nil_r. now destruct s. Qed.

Lemma boundaries_length cls lf : length (boundaries cls lf) = length cls - 1.
Proof.
  induction cls as [|c cls IH]; [reflexivity|].
  destruct cls as [|c' cls]; [reflexivity|].
  change (boundaries (c :: c' :: cls) lf)
    with (mkBoundary (is_at_beginning_of lf c) (is_at_final_element lf c c')
            (_tess_box_to_pyocr_box (snd (bounding_box lf c)))
          :: boundaries (c' :: cls) lf).
  simpl length in *. lia.
Qed.

Lemma sweep_base fl leafv a h :
  sweep fl leafv a [] h = ([], alter (fun xs => xs ++ [leafv]) a h).
Proof. now destruct fl. Qed.

Section Canonical.
Variables (lvls : list string) (cls : list PageIteratorLevel).
Variables (base : string) (cm : PageIteratorLevel).
Hypothesis Hdistinct : distinct lvls = true.
Hypothesis Hcls : Forall2 (fun l c => od_get clevel_od l = Some c) lvls cls.
Hypothesis Hbase : last lvls = Some base.
Hypothesis Hcm : last cls = Some cm.

Let self := mkMLI lvls (canonical_boxers (length lvls - 1)) base leaf_boxer.

Lemma canonical_len : length cls = length lvls.
Proof. symmetry. eapply Forall2_length; eauto. Qed.

Lemma canonical_base_cl : od_get clevel_od base = Some cm.
Proof.
  pose proof Hbase as Hb. pose proof Hcm as Hm.
  rewrite last_lookup in Hb. rewrite last_lookup in Hm.
  destruct (Forall2_lookup_l _ _ _ _ _ Hcls Hb) as [c [Hc Hod]].
  rewrite canonical_len in Hm. rewrite Hm in Hc. now injection Hc as ->.
Qed.

Lemma canonical_base_step it pre a s :
  length pre + 1 = length lvls ->
  yields (base_step self it (length lvls - 1) (pre ++ [a])) s (pre ++ [a])
    (alter (fun xs => xs ++ [leaf_node cm (current it)]) a (heap s)).
Proof.
  intros Hlen. unfold yields, base_step.
  assert (Hlv : levels self !! (length lvls - 1) = Some base).
  { pose proof Hbase as Hb. rewrite last_lookup in Hb. simpl.
    now replace (length lvls - 1) with (Init.Nat.pred (length lvls)) by lia. }
  assert (Hbx : boxers self !! (length lvls - 1) = Some leaf_boxer).
  { simpl. unfold canonical_boxers. apply list_lookup_middle.
    now rewrite length_replicate. }
  rewrite (bind_Ret _ _ _ _ _ (getitem_Some _ _ _ _ Hlv)).
  rewrite (bind_Ret _ _ _ _ _ (getitem_Some _ _ _ _ Hbx)).
  erewrite append_leaf_eq.
  - eexists. reflexivity.
  - replace (length lvls - 1) with (length pre) by lia. now apply list_lookup_middle.
  - apply canonical_base_cl.
  - unfold leaf_node. destruct (contents_at (current it) cm) as [[t c] p]. reflexivity.
Qed.

Lemma canonical_coarse_step it pre a a' rest s c c' crest :
  length pre + S (S (length rest)) = length lvls ->
  drop (length pre) cls = c :: c' :: crest ->
  let lf := current it in
  let st := is_at_beginning_of lf c in
  let a1 := if st then length (heap s) else a' in
  let h1 := if st then heap s ++ [[]] else heap s in
  let h2 := if is_at_final_element lf c c'
            then alter (fun xs => xs ++ [VTuple [VList a1;
                          _tess_box_to_pyocr_box (snd (bounding_box lf c))]]) a h1
            else h1 in
  yields (coarse_step self it (length pre) (pre ++ a :: a' :: rest)) s
    ((pre ++ [a]) ++ a1 :: rest) h2.
Proof.
  intros Hlen Hdrop lf st a1 h1 h2.
  assert (Hc : cls !! length pre = Some c).
  { rewrite <- (Nat.add_0_r (length pre)), <- lookup_drop, Hdrop. reflexivity. }
  assert (Hc' : cls !! (length pre + 1) = Some c').
  { rewrite <- lookup_drop, Hdrop. reflexivity. }
  destruct (Forall2_lookup_r _ _ _ _ _ Hcls Hc) as [level [Hlv Hod]].
  destruct (Forall2_lookup_r _ _ _ _ _ Hcls Hc') as [lower [Hlow Hod']].
  assert (Hbx : boxers self !! length pre = Some group_boxer).
  { simpl. unfold canonical_boxers. rewrite lookup_app_l by (rewrite length_replicate; lia).
    apply lookup_replicate_2. lia. }
  assert (Ha : (pre ++ a :: a' :: rest) !! length pre = Some a)
    by now apply list_lookup_middle.
  assert (Ha' : (pre ++ a :: a' :: rest) !! (length pre + 1) = Some a').
  { rewrite lookup_app_r by lia. now replace (length pre + 1 - length pre) with 1 by lia. }
  unfold yields, coarse_step.
  rewrite (bind_Ret _ _ _ _ _ (getitem_Some _ _ _ _ Hlv)).
  rewrite (bind_Ret _ _ _ _ _ (getitem_Some _ _ _ _ Hbx)).
  rewrite (group_boundaries_eq self it (length pre) level lower group_boxer
             (pre ++ a :: a' :: rest) s c c' a a' Hlow
             (str_in_lookup _ _ _ Hlv) Hod Hod' Ha Ha').
  cbv zeta. fold lf. fold st.
  assert (Htb : fst (after_start_check st (length pre)
                       (pre ++ a :: a' :: rest) (heap s)) = (pre ++ [a]) ++ a1 :: rest).
  { subst a1. unfold after_start_check.
    destruct st; simpl fst.
    - rewrite insert_app_r_alt by lia.
      replace (length pre + 1 - length pre) with 1 by lia. simpl.
      now rewrite <- app_assoc.
    - now rewrite <- app_assoc. }
  assert (Hh1 : snd (after_start_check st (length pre)
                       (pre ++ a :: a' :: rest) (heap s)) = h1).
  { subst h1. unfold after_start_check. now destruct st. }
  rewrite Htb, Hh1. fold a1.
  subst h2.
  destruct (is_at_final_element lf c c').
  - unfold contents_at. unfold group_boxer. eexists. reflexivity.
  - eexists. reflexivity.
Qed.

Lemma bind_assoc {A B C} (c : M A) (k1 : A -> M B) (k2 : B -> M C) s :
  bind (bind c k1) k2 s = bind c (fun x => bind (k1 x) k2) s.
Proof. unfold bind. destruct (c s) as [[x|e] s']; reflexivity. Qed.

Lemma canonical_levels it : forall rest pre a s,
  length pre + S (length rest) = length lvls ->
  let sw := sweep (boundaries (drop (length pre) cls) (current it))
                  (leaf_node cm (current it)) a rest (heap s) in
  yields (to_box <- for_range (coarse_step self it) (length pre) (length rest)
                      (pre ++ a :: rest) ;;
          base_step self it (length lvls - 1) to_box) s
    (pre ++ a :: fst sw) (snd sw).
Proof.
  induction rest as [|a' rest IH]; intros pre a s Hlen sw.
  - subst sw. rewrite sweep_base. simpl for_range.
    eapply yields_bind; [apply yields_ret|].
    intros s' Hs'. rewrite <- Hs'. apply canonical_base_step. simpl in Hlen. lia.
  - assert (Hdrop : exists c c' crest, drop (length pre) cls = c :: c' :: crest).
    { pose proof canonical_len as Hl.
      pose proof (length_drop cls (length pre)) as Hd. simpl in Hlen.
      destruct (drop (length pre) cls) as [|c [|c' crest]]; simpl in Hd; try lia.
      now exists c, c', crest. }
    destruct Hdrop as [c [c' [crest Hdrop]]].
    pose proof (canonical_coarse_step it pre a a' rest s c c' crest
                  ltac:(simpl in Hlen; lia) Hdrop) as Hstep.
    cbv zeta in Hstep.
    assert (Hdrop' : drop (length (pre ++ [a])) cls = c' :: crest).
    { rewrite length_app. simpl.
      rewrite <- drop_drop, Hdrop. reflexivity. }
    subst sw. rewrite Hdrop.
    change (boundaries (c :: c' :: crest) (current it))
      with (mkBoundary (is_at_beginning_of (current it) c)
              (is_at_final_element (current it) c c')
              (_tess_box_to_pyocr_box (snd (bounding_box (current it) c)))
            :: boundaries (c' :: crest) (current it)).
    cbn [sweep starts ends group_box].
    set (a1 := if is_at_beginning_of (current it) c then length (heap s) else a') in *.
    set (h1 := if is_at_beginning_of (current it) c then heap s ++ [[]] else heap s) in *.
    set (h2 := if is_at_final_element (current it) c c' then _ else h1) in *.
    destruct Hstep as [evs Hstep].
    specialize (IH (pre ++ [a]) a1 (mkState h2 (log s ++ evs))).
    rewrite Hdrop' in IH. rewrite length_app in IH. simpl length in IH.
    rewrite Nat.add_1_r in IH.
    specialize (IH ltac:(simpl in Hlen; lia)). cbv zeta in IH.
    destruct IH as [evs' IH]. simpl heap in IH. simpl log in IH.
    destruct (sweep _ _ a1 rest h2) as [rest' h3] eqn:Esw.
    simpl fst in *. simpl snd in *.
    exists (evs ++ evs'). simpl for_range.
    rewrite bind_assoc. rewrite (bind_Ret _ _ _ _ _ Hstep).
    rewrite IH. rewrite <- !app_assoc. reflexivity.
Qed.
Lemma canonical_body it a rest s :
  S (length rest) = length lvls ->
  let sw := sweep (boundaries cls (current it)) (leaf_node cm (current it))
                  a rest (heap s) in
  yields (nested_body self it (a :: rest)) s (a :: fst sw) (snd sw).
Proof.
  intros Hlen sw.
  pose proof (canonical_levels it rest [] a s Hlen) as H. cbv zeta in H.
  simpl length in H. rewrite drop_0 in H. simpl app in H.
  destruct H as [evs H]. exists evs.
  rewrite (nested_body_split self it (a :: rest) s Hdistinct Hbase).
  unfold coarse_then_base. change (length (levels self)) with (length lvls).
  replace (length lvls - 1) with (length rest) in * by lia.
  exact H.
Qed.

Lemma sweeps_length : forall ls a rest h,
  length (fst (sweeps cls cm ls a rest h)) = length rest.
Proof.
  induction ls as [|lf ls IH]; intros a rest h; simpl; [reflexivity|].
  pose proof (sweep_length (boundaries cls lf) (leaf_node cm lf) rest a h) as [_ Hl].
  destruct (sweep _ _ a rest h) as [rest' h']. simpl in Hl. now rewrite IH.
Qed.

Lemma canonical_loop blank : forall ls lf a rest s,
  S (length rest) = length lvls ->
  let sw := sweeps cls cm (lf :: ls) a rest (heap s) in
  yields (nested_loop self blank (lf :: ls) (a :: rest)) s (a :: fst sw) (snd sw).
Proof.
  induction ls as [|lf' ls IH]; intros lf a rest s Hlen sw.
  - subst sw. cbn [sweeps nested_loop].
    eapply yields_bind; [apply (canonical_body (mkIter [lf] blank) a rest s Hlen)|].
    intros s1 Hs1. unfold current. simpl hd.
    destruct (sweep _ _ a rest (heap s)) as [rest' h'] eqn:Esw. simpl fst in *. simpl snd in *.
    unfold yields. erewrite bind_Ret by (apply next_eq; apply canonical_base_cl).
    exists [CallNext cm]. unfold ret. simpl. now rewrite Hs1.
  - subst sw.
    change (nested_loop self blank (lf :: lf' :: ls) (a :: rest))
      with (to_box <- nested_body self (mkIter (lf :: lf' :: ls) blank) (a :: rest) ;;
            r <- except_StopIteration (next self (mkIter (lf :: lf' :: ls) blank)) ;;
            match r with
            | Some _ => nested_loop self blank (lf' :: ls) to_box
            | None => ret to_box
            end).
    cbn [sweeps].
    eapply yields_bind;
      [apply (canonical_body (mkIter (lf :: lf' :: ls) blank) a rest s Hlen)|].
    intros s1 Hs1. unfold current. simpl hd.
    pose proof (sweep_length (boundaries cls lf) (leaf_node cm lf) rest a (heap s))
      as [_ Hl].
    destruct (sweep _ _ a rest (heap s)) as [rest' h'] eqn:Esw.
    simpl fst in *. simpl snd in *.
    specialize (IH lf' a rest' (mkState (heap s1) (log s1 ++ [CallNext cm]))
                  ltac:(lia)).
    cbv zeta in IH. simpl heap in IH. cbn [sweeps] in IH.
    destruct IH as [evs IH]. simpl log in IH.
    unfold yields. erewrite bind_Ret by (apply next_eq; apply canonical_base_cl).
    exists ([CallNext cm] ++ evs). rewrite <- Hs1. cbv iota beta.
    rewrite IH. now rewrite <- app_assoc.
Qed.

Lemma sweeps_accumulated : forall ls closed a rest h done,
  accumulated h a rest closed done ->
  nesting closed = true ->
  well_formed_from cls closed ls = true ->
  let sw := sweeps cls cm ls a rest h in
  exists closed',
    accumulated (snd sw) a (fst sw) closed' (done ++ map (leaf_node cm) ls) /\
    forallb id closed' = true.
Proof.
  induction ls as [|lf ls IH]; intros closed a rest h done Hacc Hn Hwf sw.
  - exists closed. subst sw. simpl. rewrite app_nil_r. split; [exact Hacc | exact Hwf].
  - subst sw. cbn [well_formed_from] in Hwf.
    apply andb_true_iff in Hwf. destruct Hwf as [Hwf Hwf'].
    apply andb_true_iff in Hwf. destruct Hwf as [Hst Hen].
    apply bool_decide_eq_true in Hst.
    pose proof (sweep_accumulated rest (boundaries cls lf) (leaf_node cm lf) a closed
                  done h Hacc Hst Hn Hen) as [Hstep _].
    cbn [sweeps]. destruct (sweep _ _ a rest h) as [rest' h'].
    simpl fst in *. simpl snd in *.
    destruct (IH _ a rest' h' _ Hstep Hen Hwf') as [closed' [Hfin Hall]].
    exists closed'. split; [|exact Hall].
    cbn [map]. now rewrite <- app_assoc in Hfin.
Qed.
End Canonical.

Lemma nesting_replicate_true n : nesting (replicate n true) = true.
Proof.
  induction n as [|n IH]; simpl; [reflexivity|]. rewrite IH, andb_true_r.
  clear IH. induction n as [|n IH]; simpl; [reflexivity | exact IH].
Qed.

Lemma forallb_replicate_true n : forallb id (replicate n true) = true.
Proof. induction n as [|n IH]; simpl; [reflexivity | exact IH]. Qed.

Lemma lookup_total_fresh (h : list (list value)) n l :
  length h <= l -> (h ++ replicate n []) !!! l = [].
Proof.
  intros Hl. rewrite list_lookup_total_alt, lookup_app_r by lia.
  destruct (replicate n [] !! (l - length h)) as [x|] eqn:E; [|reflexivity].
  apply lookup_replicate in E. simpl. apply E.
Qed.


(** ** Order preservation *)

Lemma clevels_Forall2 : forall lvls cls,
  clevels lvls = Some cls ->
  Forall2 (fun l c => od_get clevel_od l = Some c) lvls cls.
Proof.
  induction lvls as [|l lvls IH]; intros cls H; cbn [clevels] in H.
  - injection H as <-. constructor.
  - destruct (od_get clevel_od l) as [c|] eqn:Hc; [|discriminate].
    destruct (clevels lvls) as [cs|]; [|discriminate].
    injection H as <-. constructor; [exact Hc | now apply IH].
Qed.

(** C1, as the code has it: for a cursor with at least one leaf that honours
    the boundary contract, and distinct levels named in clevel_od with the
    canonical boxers, the leaves of the tree that [nested] returns, read
    depth-first in the final heap, are the leaves of the cursor in the order
    visited. *)
Theorem nested_preserves_leaf_order lvls cls base cm blank lf ls s :
  distinct lvls = true ->
  clevels lvls = Some cls ->
  last lvls = Some base ->
  last cls = Some cm ->
  well_formed cls (lf :: ls) = true ->
  exists a s',
    nested (mkMLI lvls (canonical_boxers (length lvls - 1)) base leaf_boxer)
           (mkIter (lf :: ls) blank) s = (Ret (VList a), s') /\
    walk_list (heap s') (length lvls - 1) a = map (leaf_node cm) (lf :: ls).
Proof.
  intros Hd Hcl Hbase Hcm Hwf.
  apply clevels_Forall2 in Hcl.
  pose proof (canonical_len lvls cls Hcl) as Hlen.
  destruct lvls as [|l0 lvls']; [discriminate Hbase|].
  set (lvls := l0 :: lvls') in *.
  set (self := mkMLI lvls (canonical_boxers (length lvls - 1)) base leaf_boxer).
  set (a := length (heap s)).
  set (rest := seq (S a) (length lvls')).
  set (h0 := heap s ++ replicate (length lvls) []).
  assert (Hnew : new_lists (length (levels self)) s = (Ret (a :: rest), mkState h0 (log s))).
  { rewrite new_lists_eq. reflexivity. }
  assert (Hrest : S (length rest) = length lvls).
  { subst rest lvls. rewrite length_seq. reflexivity. }
  destruct (canonical_loop lvls cls base cm Hd Hcl Hbase Hcm blank ls lf a rest
              (mkState h0 (log s)) Hrest) as [evs Hloop].
  simpl heap in Hloop. simpl log in Hloop.
  assert (Hinit : accumulated h0 a rest (replicate (length cls - 1) true) []).
  { apply accumulated_fresh.
    - subst h0 a lvls. rewrite length_app, length_replicate. simpl. lia.
    - subst h0 a. apply lookup_total_fresh. lia.
    - rewrite length_replicate. lia.
    - apply forallb_replicate_true. }
  destruct (sweeps_accumulated cls cm (lf :: ls) _ a rest h0 [] Hinit
              (nesting_replicate_true _) Hwf) as [closed' [Hfin Hall]].
  pose proof (sweeps_length cls cm (lf :: ls) a rest h0) as Hlr.
  destruct (sweeps cls cm (lf :: ls) a rest h0) as [rest' h'].
  simpl fst in *. simpl snd in *.
  destruct (accumulated_closed _ _ _ _ _ Hfin (forallb_id_hd _ Hall)) as [Hwalk _].
  exists a, (mkState h' (log s ++ evs)). split.
  - unfold nested. rewrite (bind_Ret _ _ _ _ _ Hnew).
    simpl exhausted. simpl remaining. rewrite (bind_Ret _ _ _ _ _ Hloop).
    reflexivity.
  - simpl heap. rewrite Hlr in Hwalk.
    replace (length lvls - 1) with (length rest) by lia. exact Hwalk.
Qed.

Lemma nested_preserves_leaf_order_witness :
  distinct ["block"; "line"; "word"] = true /\
  clevels ["block"; "line"; "word"] = Some [BLOCK; TEXTLINE; WORD] /\
  well_formed [BLOCK; TEXTLINE; WORD] (remaining two_blocks) = true /\
  exists a s',
    nested block_line_word two_blocks empty_state = (Ret (VList a), s') /\
    walk_list (heap s') 2 a = map (leaf_node WORD) (remaining two_blocks).
Proof.
  split; [reflexivity|]. split; [reflexivity|]. split; [reflexivity|].
  exact (nested_preserves_leaf_order ["block"; "line"; "word"] [BLOCK; TEXTLINE; WORD]
           "word" WORD nowhere (hd nowhere (remaining two_blocks))
           (tl (remaining two_blocks)) empty_state
           eq_refl eq_refl eq_refl eq_refl eq_refl).
Defined.

(** C1 fails for some cursors: on a cursor with no leaves the tree has one
    leaf, read at the position the backend reports when it is on nothing; and
    when the last word does not report the end of its line, the tree is
    empty and the word is lost. *)
Lemma nested_leaf_order_fails :
  ~ (exists a s',
       nested single_word no_leaves empty_state = (Ret (VList a), s') /\
       walk_list (heap s') 0 a = map (leaf_node WORD) (remaining no_leaves)) /\
  ~ (exists a s',
       nested line_word unfinished_line empty_state = (Ret (VList a), s') /\
       walk_list (heap s') 1 a = map (leaf_node WORD) (remaining unfinished_line)).
Proof.
  split; intros [a [s' [H Hw]]]; vm_compute in H; injection H as <- <-;
    vm_compute in Hw; discriminate Hw.
Qed.

(** The order is preserved because a group node holds the list object
    itself: a boxer that copies its children is called before the last leaf
    of the group is appended, and misses it. *)
Remark copying_boxer_misses_last_leaf :
  returned_list (run (nested line_word_copying two_lines)) =
  Some [VTuple [VTuple (map (leaf_node WORD) (take 2 (remaining two_lines)));
                VTuple [VTuple [VInt 2; VInt 0]; VTuple [VInt 3; VInt 1]]];
        VTuple [VTuple (map (leaf_node WORD) (take 2 (drop 3 (remaining two_lines))));
                VTuple [VTuple [VInt 2; VInt 1]; VTuple [VInt 3; VInt 2]]]].
Proof. reflexivity. Qed.

(** ** A cursor without leaves *)


Lemma clevels_lookup lvls cls i l :
  clevels lvls = Some cls -> lvls !! i = Some l ->
  exists c, cls !! i = Some c /\ od_get clevel_od l = Some c.
Proof.
  intros Hc Hl. apply clevels_Forall2 in Hc.
  destruct (Forall2_lookup_l _ _ _ _ _ Hc Hl) as [c [? ?]]. now exists c.
Qed.

Section ValidSpec.
Variable self : MultiLevelIterator.
Hypothesis Hvalid : valid_spec self = true.

Lemma valid_spec_parts :
  distinct (levels self) = true /\
  (exists cls, clevels (levels self) = Some cls) /\
  last (levels self) = Some (base_level self) /\
  length (boxers self) = length (levels self).
Proof.
  unfold valid_spec in Hvalid.
  apply andb_true_iff in Hvalid. destruct Hvalid as [H1 H4].
  apply andb_true_iff in H1. destruct H1 as [H1 H3].
  apply andb_true_iff in H1. destruct H1 as [H1 H2].
  split; [exact H1|]. split.
  - destruct (clevels (levels self)) as [cls|]; [now exists cls | discriminate].
  - split; [|now apply Nat.eqb_eq in H4].
    destruct (last (levels self)) as [l|]; [|discriminate].
    apply String.eqb_eq in H3. now subst.
Qed.





End ValidSpec.

(** ** The order of the steps in one turn *)



Section TurnInOrder.
Variable self : MultiLevelIterator.
Variable cls : list PageIteratorLevel.
Hypothesis Hvalid : valid_spec self = true.
Hypothesis Hcls : clevels (levels self) = Some cls.






End TurnInOrder.



(** ** No result iterator *)





(** * Further properties *)

(** ** detect_orientation *)

(** X1: once [init] has returned a handle, every run of
    [detect_orientation] calls [cleanup] on that handle exactly once, as the
    last call it makes, whether it returns or raises. *)
Theorem detect_orientation_cleans_up_once {N} tr (tm : tesseract_raw_more N)
  image lang h s :
  raw_init tr lang = Ret h ->
  exists r s' mid,
    detect_orientation tr tm image lang s = (r, s') /\
    log s' = log s ++ [CallInit lang] ++ mid ++ [CallCleanup h] /\
    Forall not_init_or_cleanup mid.
Proof.
  intros Hinit. unfold detect_orientation.
  unfold bind at 1. unfold raw_call at 1, bind at 1, emit, lift. simpl.
  rewrite Hinit.
  match goal with |- context [try_finally ?body ?fin] => set (c := body) end.
  assert (Hc : emits not_init_or_cleanup c).
  { subst c.
    apply emits_bind; [now apply emits_raw_call|]. intros _.
    apply emits_bind; [now apply emits_raw_call|]. intros _.
    apply emits_bind; [apply emits_lift|]. intros os.
    destruct (nonpositive tm (os_confidence os)); [apply emits_raise|].
    apply emits_bind; [|intros; apply emits_ret].
    unfold orientation_angle. destruct (os_orientation os);
      first [apply emits_ret | apply emits_raise]. }
  unfold try_finally.
  specialize (Hc (mkState (heap s) (log s ++ [CallInit lang]))).
  destruct Hc as [mid [Hlog Hmid]].
  destruct (c _) as [r s1]. simpl in Hlog.
  unfold raw_call, bind, emit, lift. simpl.
  destruct (raw_cleanup tr h) as [u|e];
    (eexists _, _, mid; split; [reflexivity|]; simpl; split; [|exact Hmid];
     rewrite Hlog; now rewrite <- !app_assoc).
Qed.

Lemma detect_orientation_cleans_up_once_witness :
  exists r s' mid,
    detect_orientation sample_raw (sample_osd PAGE_LEFT 3 "3.05.02" true) VNone None
      empty_state = (r, s') /\
    log s' = log empty_state ++ [CallInit None] ++ mid ++ [CallCleanup 7] /\
    Forall not_init_or_cleanup mid.
Proof.
  exact (detect_orientation_cleans_up_once sample_raw
           (sample_osd PAGE_LEFT 3 "3.05.02" true) VNone None 7 empty_state eq_refl).
Defined.


(** ** Results that were returned *)

Lemma bind_Ret_inv {A B} (c : M A) (k : A -> M B) s y s' :
  bind c k s = (Ret y, s') ->
  exists x s1, c s = (Ret x, s1) /\ k x s1 = (Ret y, s').
Proof.
  unfold bind. destruct (c s) as [[x|e] s1]; intros H; [|discriminate H].
  now exists x, s1.
Qed.

Lemma try_finally_Ret_inv {A} (c : M A) (fin : M unit) s y s' :
  try_finally c fin s = (Ret y, s') ->
  exists s1, c s = (Ret y, s1) /\ fin s1 = (Ret tt, s').
Proof.
  unfold try_finally. destruct (c s) as [r s1].
  destruct (fin s1) as [[[]|e] s2] eqn:Hf; intros H; [|discriminate H].
  injection H as -> ->. now exists s1.
Qed.

Lemma raw_call_Ret_inv {A} e (o : outcome A) s x s' :
  raw_call e o s = (Ret x, s') ->
  o = Ret x /\ s' = mkState (heap s) (log s ++ [e]).
Proof.
  unfold raw_call, bind, emit, lift. simpl. intros H.
  destruct o as [y|err]; [|discriminate H]. now injection H as -> <-.
Qed.

(** X2: whenever [detect_orientation] returns, the angle is 0, 90, 180 or
    270, the confidence is the one the backend reported, unchanged, and it
    is not [<= 0]. *)
Theorem detect_orientation_returns {N} tr (tm : tesseract_raw_more N)
  image lang s r s' :
  detect_orientation tr tm image lang s = (Ret r, s') ->
  In (angle r) [0; 90; 180; 270]%Z /\
  nonpositive tm (confidence r) = false /\
  exists h os,
    raw_init tr lang = Ret h /\
    raw_detect_os tm h = Ret os /\
    confidence r = os_confidence os /\
    raw_cleanup tr h = Ret tt.
Proof.
  unfold detect_orientation. intros H.
  apply bind_Ret_inv in H. destruct H as [h [s0 [Hinit H]]].
  apply raw_call_Ret_inv in Hinit. destruct Hinit as [Hinit ->].
  apply try_finally_Ret_inv in H. destruct H as [s1 [H Hfin]].
  apply raw_call_Ret_inv in Hfin. destruct Hfin as [Hfin _].
  apply bind_Ret_inv in H. destruct H as [u1 [s2 [_ H]]].
  apply bind_Ret_inv in H. destruct H as [u2 [s3 [_ H]]].
  apply bind_Ret_inv in H. destruct H as [os [s4 [Hos H]]].
  unfold lift in Hos. injection Hos as Hos _.
  destruct (nonpositive tm (os_confidence os)) eqn:Hconf; [discriminate H|].
  apply bind_Ret_inv in H. destruct H as [a [s5 [Ha H]]].
  unfold ret in H. injection H as <- _. simpl.
  split; [|split; [exact Hconf|now exists h, os]].
  unfold orientation_angle in Ha.
  destruct (os_orientation os); try discriminate Ha;
    unfold ret in Ha; injection Ha as <- _; simpl; tauto.
Qed.

Lemma detect_orientation_returns_witness :
  let r := mkOrientation 90%Z 5%Z in
  detect_orientation sample_raw (sample_osd PAGE_RIGHT 5 "3.05.02" true) VNone None
    empty_state
  = (Ret r, mkState [] [CallInit None; CallSetPageSegMode 7 0; CallSetImage 7;
                        CallCleanup 7]) /\
  In (angle r) [0; 90; 180; 270]%Z /\
  nonpositive (sample_osd PAGE_RIGHT 5 "3.05.02" true) (confidence r) = false.
Proof.
  split; [reflexivity|].
  destruct (detect_orientation_returns sample_raw (sample_osd PAGE_RIGHT 5 "3.05.02" true)
              VNone None empty_state (mkOrientation 90%Z 5%Z) _ eq_refl)
    as [H1 [H2 _]].
  split; [exact H1 | exact H2].
Defined.

(** X3: when the backend reports a confidence [<= 0],
    [detect_orientation] raises TesseractError "no script" after the cleanup,
    whatever orientation was reported: the confidence is tested before the
    orientation is looked up. *)
Theorem detect_orientation_no_script {N} tr (tm : tesseract_raw_more N)
  image lang h os s :
  raw_init tr lang = Ret h ->
  raw_set_page_seg_mode tr h (OSD_ONLY tm) = Ret tt ->
  raw_set_image tr h image = Ret tt ->
  raw_detect_os tm h = Ret os ->
  nonpositive tm (os_confidence os) = true ->
  raw_cleanup tr h = Ret tt ->
  detect_orientation tr tm image lang s =
  (Raise (TesseractError "no script" "no script detected"),
   mkState (heap s)
     (log s ++ [CallInit lang; CallSetPageSegMode h (OSD_ONLY tm); CallSetImage h;
                CallCleanup h])).
Proof.
  intros Hinit Hpsm Himg Hos Hconf Hcu. unfold detect_orientation.
  unfold try_finally, raw_call, bind, emit, lift, raise. simpl.
  rewrite Hinit. simpl. rewrite Hpsm. simpl. rewrite Himg. simpl. rewrite Hos. simpl.
  rewrite Hconf. simpl. rewrite Hcu. now rewrite <- !app_assoc.
Qed.

Lemma detect_orientation_no_script_witness :
  detect_orientation sample_raw (sample_osd (PAGE_OTHER 9) 0 "3.05.02" true) VNone None
    empty_state =
  (Raise (TesseractError "no script" "no script detected"),
   mkState [] [CallInit None; CallSetPageSegMode 7 0; CallSetImage 7; CallCleanup 7]).
Proof.
  exact (detect_orientation_no_script sample_raw (sample_osd (PAGE_OTHER 9) 0 "3.05.02" true)
           VNone None 7 (mkOs (PAGE_OTHER 9) 0%Z) empty_state
           eq_refl eq_refl eq_refl eq_refl eq_refl eq_refl).
Defined.

(** ** get_available_languages *)

(** X4: [get_available_languages] makes two logged calls, [init] without
    language and [cleanup] on the handle, and returns what the backend
    lists, unless [cleanup] raises: then its error replaces the list or the
    error raised before. *)
Theorem get_available_languages_outcome {N} tr (tm : tesseract_raw_more N) h s :
  raw_init tr None = Ret h ->
  get_available_languages tr tm s =
  (match raw_cleanup tr h with
   | Ret _ => raw_get_available_languages tm h
   | Raise e => Raise e
   end,
   mkState (heap s) (log s ++ [CallInit None; CallCleanup h])).
Proof.
  intros Hinit. unfold get_available_languages.
  unfold try_finally, raw_call, bind, emit, lift. simpl. rewrite Hinit. simpl.
  destruct (raw_cleanup tr h); rewrite <- !app_assoc; reflexivity.
Qed.

Lemma get_available_languages_outcome_witness :
  get_available_languages sample_raw (sample_osd PAGE_UP 1 "3.05.02" true) empty_state =
  (Ret ["eng"; "fra"], mkState [] [CallInit None; CallCleanup 7]).
Proof.
  exact (get_available_languages_outcome sample_raw (sample_osd PAGE_UP 1 "3.05.02" true)
           7 empty_state eq_refl).
Defined.

(** ** is_available *)

(** X5: [is_available] is False without the backend library, whatever the
    version string is (it is not parsed); with the library it is True exactly
    when the parsed version is at least 3.4. *)
Theorem is_available_version_threshold {N} (tm : tesseract_raw_more N) s :
  (raw_is_available tm = false -> is_available tm s = (Ret false, s)) /\
  (forall v0 v1 v2 s',
      raw_is_available tm = true ->
      get_version (raw_get_version tm) s = (Ret (v0, v1, v2), s') ->
      exists b,
        is_available tm s = (Ret b, s') /\
        (b = true <-> (3 < v0 \/ (v0 = 3 /\ 4 <= v1))%Z)).
Proof.
  split.
  { intros H. unfold is_available. now rewrite H. }
  intros v0 v1 v2 s' Hav Hv. unfold is_available. rewrite Hav. simpl.
  rewrite (bind_Ret _ _ _ _ _ Hv).
  destruct ((v0 <? 3)%Z || ((v0 =? 3)%Z && (v1 <? 4)%Z)) eqn:E.
  - exists false. split; [reflexivity|]. split; [discriminate|].
    intros H. exfalso.
    apply orb_true_iff in E. destruct E as [E|E].
    + apply Z.ltb_lt in E. lia.
    + apply andb_true_iff in E. destruct E as [E1 E2].
      apply Z.eqb_eq in E1. apply Z.ltb_lt in E2. lia.
  - exists true. split; [reflexivity|]. split; [|reflexivity]. intros _.
    apply orb_false_iff in E. destruct E as [E1 E2].
    apply Z.ltb_ge in E1. apply andb_false_iff in E2.
    destruct E2 as [E2|E2]; [apply Z.eqb_neq in E2 | apply Z.ltb_ge in E2]; lia.
Qed.

Lemma is_available_version_threshold_witness :
  is_available (sample_osd PAGE_UP 1 "not a version" false) empty_state
    = (Ret false, empty_state) /\
  exists b,
    is_available (sample_osd PAGE_UP 1 "3.04.00" true) empty_state = (Ret b, empty_state) /\
    (b = true <-> (3 < 3 \/ (3 = 3 /\ 4 <= 4))%Z).
Proof.
  split.
  - exact (proj1 (is_available_version_threshold
                    (sample_osd PAGE_UP 1 "not a version" false) empty_state) eq_refl).
  - exact (proj2 (is_available_version_threshold
                    (sample_osd PAGE_UP 1 "3.04.00" true) empty_state)
             3%Z 4%Z 0%Z empty_state eq_refl eq_refl).
Defined.


(** ** More of get_version *)

Lemma str_before_no_sep sep s : str_mem sep s = false -> str_before sep s = s.
Proof.
  induction s as [|c s IH]; simpl; [reflexivity|].
  intros H. apply orb_false_iff in H. destruct H as [Hc Hs].
  rewrite Ascii.eqb_sym, Hc. now rewrite IH.
Qed.

Lemma str_before_app sep s rest :
  str_mem sep s = false ->
  str_before sep (s ++ String sep rest) = s.
Proof.
  induction s as [|c s IH]; simpl.
  - intros _. now rewrite Ascii.eqb_refl.
  - intros H. apply orb_false_iff in H. destruct H as [Hc Hs].
    rewrite Ascii.eqb_sym, Hc. now rewrite IH.
Qed.

Lemma str_before_app_no_sep sep s t :
  str_mem sep s = false ->
  str_before sep (s ++ t) = (s ++ str_before sep t)%string.
Proof.
  induction s as [|c s IH]; simpl; [reflexivity|].
  intros H. apply orb_false_iff in H. destruct H as [Hc Hs].
  rewrite Ascii.eqb_sym, Hc. now rewrite IH.
Qed.

(** X6: [get_version] reads the version up to the first space only. *)
Theorem get_version_ignores_after_space token rest s :
  str_mem " " token = false ->
  get_version (token ++ String " " rest) s = get_version token s.
Proof.
  intros H. unfold get_version.
  now rewrite str_before_app, str_before_no_sep.
Qed.

Lemma get_version_ignores_after_space_witness :
  get_version ("3.05.02" ++ String " " "with leptonica") empty_state
  = get_version "3.05.02" empty_state.
Proof.
  exact (get_version_ignores_after_space "3.05.02" "with leptonica" empty_state eq_refl).
Defined.

Lemma str_find_from_skip sub pre t i d :
  String.get 0 sub = Some d ->
  str_mem d pre = false ->
  str_find_from sub (pre ++ t) i = str_find_from sub t (i + Z.of_nat (String.length pre)).
Proof.
  intros Hd. revert i. induction pre as [|c pre IH]; intros i Hm.
  - simpl. f_equal. lia.
  - simpl in Hm. apply orb_false_iff in Hm. destruct Hm as [Hc Hm].
    change (String c pre ++ t)%string with (String c (pre ++ t)).
    cbn [str_find_from].
    assert (Hp : String.prefix sub (String c (pre ++ t)) = false).
    { destruct sub as [|d' sub]; [discriminate Hd|].
      simpl in Hd. injection Hd as ->. simpl.
      destruct (ascii_dec d c) as [->|Hne]; [now rewrite Ascii.eqb_refl in Hc|reflexivity]. }
    rewrite Hp, IH by exact Hm. f_equal. simpl String.length. lia.
Qed.

Lemma substring_0_app a b :
  String.substring 0 (String.length a) (a ++ b) = a.
Proof. induction a as [|c a IH]; simpl; [now destruct b | now rewrite IH]. Qed.

Lemma str_length_app a b :
  String.length (a ++ b) = String.length a + String.length b.
Proof. induction a as [|c a IH]; simpl; [reflexivity | now rewrite IH]. Qed.

Lemma str_find_from_head x i : str_find_from "dev" ("dev" ++ x) i = i.
Proof. cbn. now destruct x. Qed.

(** X7: a version with "dev" after a non-empty prefix free of "d" and of
    spaces is parsed as that prefix: the string is cut where "dev" starts. *)
Theorem get_version_cuts_at_dev pre rest s :
  pre <> EmptyString ->
  str_mem "d" pre = false ->
  str_mem " " pre = false ->
  get_version (pre ++ "dev" ++ rest) s = parse_version pre s.
Proof.
  intros Hne Hd Hsp. unfold get_version.
  rewrite str_before_app_no_sep by exact Hsp.
  change (str_before " " ("dev" ++ rest)) with ("dev" ++ str_before " " rest)%string.
  set (tail := ("dev" ++ str_before " " rest)%string).
  assert (Hfind : str_find "dev" (pre ++ tail) = Z.of_nat (String.length pre)).
  { unfold str_find. rewrite (str_find_from_skip "dev" pre tail 0 "d" eq_refl Hd).
    subst tail. now rewrite str_find_from_head. }
  rewrite Hfind.
  assert (Hpos : (Z.of_nat (String.length pre) =? 0)%Z = false).
  { apply Z.eqb_neq. destruct pre; [contradiction | simpl; lia]. }
  rewrite Hpos. unfold str_slice_to.
  assert (Hlt : (Z.of_nat (String.length pre) <? 0)%Z = false) by (apply Z.ltb_ge; lia).
  rewrite Hlt, str_length_app.
  rewrite Z.min_l by lia. rewrite Nat2Z.id. now rewrite substring_0_app.
Qed.

Lemma get_version_cuts_at_dev_witness :
  get_version ("3.05.00" ++ "dev" ++ "-394-g1ced") empty_state
  = parse_version "3.05.00" empty_state.
Proof.
  exact (get_version_cuts_at_dev "3.05.00" "-394-g1ced" empty_state
           ltac:(discriminate) eq_refl eq_refl).
Defined.






(** ** The heap only grows *)

Lemma heap_extends_refl h : heap_extends h h.
Proof. intros l xs H. exists []. now rewrite app_nil_r. Qed.

Lemma heap_extends_trans h1 h2 h3 :
  heap_extends h1 h2 -> heap_extends h2 h3 -> heap_extends h1 h3.
Proof.
  intros H12 H23 l xs H. destruct (H12 l xs H) as [ys Hys].
  destruct (H23 l _ Hys) as [zs Hzs]. exists (ys ++ zs). now rewrite app_assoc.
Qed.

Lemma keeps_heap_grows {A} (c : M A) : keeps_heap c -> grows c.
Proof. intros H s. rewrite H. apply heap_extends_refl. Qed.

Lemma grows_bind {A B} (c : M A) (k : A -> M B) :
  grows c -> (forall a, grows (k a)) -> grows (bind c k).
Proof.
  intros Hc Hk s. unfold bind. specialize (Hc s).
  destruct (c s) as [[a|e] s1]; simpl in *; [|exact Hc].
  eapply heap_extends_trans; [exact Hc | apply Hk].
Qed.

Lemma grows_ret {A} (a : A) : grows (ret a).
Proof. apply keeps_heap_grows. now intros s. Qed.

Lemma grows_raise {A} e : grows (@raise A e).
Proof. apply keeps_heap_grows. now intros s. Qed.

Lemma grows_lift {A} (o : outcome A) : grows (lift o).
Proof. apply keeps_heap_grows. now intros s. Qed.

Lemma grows_emit e : grows (emit e).
Proof. apply keeps_heap_grows. now intros s. Qed.

Lemma grows_getitem {A} (l : list A) i : grows (getitem l i).
Proof. unfold getitem. destruct (l !! i); [apply grows_ret | apply grows_raise]. Qed.

Lemma grows_setitem {A} (l : list A) i x : grows (setitem l i x).
Proof. unfold setitem. destruct (decide _); [apply grows_ret | apply grows_raise]. Qed.

Lemma grows_od_getitem {V} (od : list (string * V)) k : grows (od_getitem od k).
Proof. unfold od_getitem. destruct (od_get od k); [apply grows_ret | apply grows_raise]. Qed.

Lemma grows_new_list : grows new_list.
Proof.
  intros s l xs H. simpl. exists []. rewrite app_nil_r.
  rewrite lookup_app_l; [exact H | eapply lookup_lt_Some; eauto].
Qed.

Lemma grows_list_append a v : grows (list_append a v).
Proof.
  intros s l xs H. simpl. destruct (decide (a = l)) as [->|Hne].
  - exists [v]. now rewrite list_lookup_alter_eq, H.
  - exists []. now rewrite list_lookup_alter_ne, app_nil_r.
Qed.

Lemma grows_call_boxer i b x y z : grows (call_boxer i b x y z).
Proof.
  unfold call_boxer. apply grows_bind; [apply grows_emit|]. intros _.
  apply keeps_heap_grows. now intros s.
Qed.

Lemma grows_new_lists n : grows (new_lists n).
Proof.
  induction n as [|n IH]; simpl; [apply grows_ret|].
  apply grows_bind; [apply grows_new_list|]. intros l.
  apply grows_bind; [exact IH|]. intros ls. apply grows_ret.
Qed.

Lemma grows_for_range {T} (body : nat -> T -> M T) n :
  (forall i acc, grows (body i acc)) ->
  forall start acc, grows (for_range body start n acc).
Proof.
  intros Hb. induction n as [|n IH]; intros start acc; simpl; [apply grows_ret|].
  apply grows_bind; [apply Hb|]. intros acc'. apply IH.
Qed.

Lemma grows_except {A} (c : M A) : grows c -> grows (except_StopIteration c).
Proof.
  intros Hc s. unfold except_StopIteration. specialize (Hc s).
  destruct (c s) as [[a|e] s1]; simpl in *; [exact Hc|].
  destruct e; exact Hc.
Qed.

Lemma grows_try_finally {A} (c : M A) (fin : M unit) :
  grows c -> grows fin -> grows (try_finally c fin).
Proof.
  intros Hc Hf s. unfold try_finally. specialize (Hc s).
  destruct (c s) as [r s1]. specialize (Hf s1).
  destruct (fin s1) as [[u|e] s2]; simpl in *; eapply heap_extends_trans; eauto.
Qed.

Ltac grows_step :=
  first
    [ apply grows_ret | apply grows_raise | apply grows_lift
    | apply grows_getitem | apply grows_setitem | apply grows_od_getitem
    | apply grows_new_list | apply grows_list_append | apply grows_new_lists
    | apply grows_emit | apply grows_call_boxer
    | apply grows_bind; [|intros ?]
    | match goal with
      | |- grows (match ?x with _ => _ end) => destruct x
      end ].

Lemma grows_nested_iter self it i to_box : grows (nested_iter self it i to_box).
Proof.
  unfold nested_iter, append_leaf, group_boundaries, get_contents, is_at_beginning,
    is_at_end, result_iterator_get_utf8_text, page_iterator_bounding_box,
    page_iterator_is_at_beginning_of, page_iterator_is_at_final_element.
  repeat grows_step.
Qed.

Lemma grows_next self it : grows (next self it).
Proof. unfold next. repeat grows_step. Qed.

Lemma grows_nested_loop self blank ls :
  forall to_box, grows (nested_loop self blank ls to_box).
Proof.
  induction ls as [|lf ls IH]; intros to_box; simpl.
  - apply grows_bind; [apply grows_for_range; intros; apply grows_nested_iter|].
    intros tb. apply grows_bind; [apply grows_except, grows_next|].
    intros [r|]; apply grows_ret.
  - apply grows_bind; [apply grows_for_range; intros; apply grows_nested_iter|].
    intros tb. apply grows_bind; [apply grows_except, grows_next|].
    intros [r|]; [apply IH | apply grows_ret].
Qed.

Lemma grows_nested self it : grows (nested self it).
Proof.
  unfold nested. apply grows_bind; [grows_step|intros ?].
  apply grows_bind; [apply grows_nested_loop|intros ?]. repeat grows_step.
Qed.

(** X9: [nested] and [image_to_string] only allocate lists and append to
    lists: every list object of the heap they start from is still there
    afterwards, its former elements a prefix of its elements, also when the
    run raises. *)
Theorem nested_heap_only_grows :
  (forall self it s,
      heap_extends (heap s) (heap (snd (nested self it s)))) /\
  (forall tr bm image lang bld s,
      heap_extends (heap s) (heap (snd (image_to_string tr bm image lang bld s)))).
Proof.
  split; [intros self it s; apply grows_nested|].
  intros tr bm image lang bld s. revert s.
  change (grows (image_to_string tr bm image lang bld)).
  unfold image_to_string, raw_call.
  apply grows_bind; [repeat grows_step|]. intros h.
  apply grows_try_finally; [|repeat grows_step].
  do 3 (apply grows_bind; [repeat grows_step|intros _]).
  apply grows_bind; [repeat grows_step|]. intros [res|]; [|apply grows_raise].
  apply grows_bind; [repeat grows_step|]. intros page.
  apply grows_bind; [apply grows_lift|]. intros mli.
  apply grows_bind; [apply grows_nested | intros; apply grows_ret].
Qed.


(** ** One pass over the cursor *)

Lemma except_next_Ret_inv self blank ls s r s' :
  except_StopIteration (next self (mkIter ls blank)) s = (Ret r, s') ->
  exists cl,
    od_get clevel_od (base_level self) = Some cl /\
    s' = mkState (heap s) (log s ++ [CallNext cl]) /\
    r = match ls with
        | _ :: (_ :: _) as t => Some (mkIter t blank)
        | _ => None
        end.
Proof.
  intros H. destruct (od_get clevel_od (base_level self)) as [cl|] eqn:Hcl.
  - rewrite (next_eq self blank ls s cl Hcl) in H. injection H as <- <-.
    now exists cl.
  - unfold except_StopIteration, next, bind, od_getitem in H. rewrite Hcl in H.
    discriminate H.
Qed.

Lemma for_range_inv {T} (body : nat -> T -> M T) (I : nat -> T -> state -> Prop) k :
  forall start acc s acc' s',
    (forall i a st a' st', start <= i < start + k ->
        I i a st -> body i a st = (Ret a', st') -> I (S i) a' st') ->
    I start acc s ->
    for_range body start k acc s = (Ret acc', s') ->
    I (start + k) acc' s'.
Proof.
  induction k as [|k IH]; intros start acc s acc' s' Hstep Hi Hrun; simpl in Hrun.
  - unfold ret in Hrun. injection Hrun as <- <-. now rewrite Nat.add_0_r.
  - apply bind_Ret_inv in Hrun. destruct Hrun as [a1 [s1 [Hb Hrun]]].
    replace (start + S k) with (S start + k) by lia.
    eapply IH; [|eapply Hstep; [|exact Hi|exact Hb]; lia|exact Hrun].
    intros i a st a' st' Hr. apply Hstep. lia.
Qed.

Lemma emits_nested_body_not_next self it to_box :
  emits not_next (nested_body self it to_box).
Proof.
  unfold nested_body. apply emits_for_range. intros i acc.
  unfold nested_iter, append_leaf, group_boundaries, get_contents, is_at_beginning,
    is_at_end, result_iterator_get_utf8_text, page_iterator_bounding_box,
    page_iterator_is_at_beginning_of, page_iterator_is_at_final_element, call_boxer.
  repeat first
    [ apply emits_ret | apply emits_raise | apply emits_getitem | apply emits_setitem
    | apply emits_od_getitem | apply emits_new_list | apply emits_list_append
    | apply emits_emit; reflexivity
    | apply emits_bind; [|intros ?]
    | match goal with
      | |- emits _ (match ?x with _ => _ end) => destruct x
      | |- emits _ (fun s => (_, s)) => intros s; exists []; simpl; now rewrite app_nil_r
      end ].
Qed.

Lemma filter_not_next evs : Forall not_next evs -> List.filter is_next evs = [].
Proof.
  induction 1 as [|e evs He _ IH]; simpl; [reflexivity|].
  unfold not_next in He. now rewrite He.
Qed.

Lemma nested_loop_single_pass self blank : forall ls to_box s to_box' s',
  nested_loop self blank ls to_box s = (Ret to_box', s') ->
  exists cl evs,
    od_get clevel_od (base_level self) = Some cl /\
    log s' = log s ++ evs /\
    List.filter is_next evs = replicate (Nat.max 1 (length ls)) (CallNext cl).
Proof.
  induction ls as [|lf ls IH]; intros to_box s to_box' s' Hrun; cbn [nested_loop] in Hrun;
    apply bind_Ret_inv in Hrun; destruct Hrun as [tb1 [s1 [Hbody Hrun]]];
    apply bind_Ret_inv in Hrun; destruct Hrun as [r [s2 [Hnext Hrun]]];
    apply except_next_Ret_inv in Hnext; destruct Hnext as [cl [Hcl [-> ->]]];
    match type of Hbody with nested_body _ ?it _ _ = _ =>
      destruct (emits_nested_body_not_next self it to_box s) as [evs1 [Hlog1 Hnn]]
    end;
    rewrite Hbody in Hlog1; simpl in Hlog1.
  - unfold ret in Hrun. injection Hrun as <- <-.
    exists cl, (evs1 ++ [CallNext cl]). split; [exact Hcl|]. simpl.
    split; [now rewrite Hlog1, app_assoc|].
    now rewrite List.filter_app, (filter_not_next _ Hnn).
  - destruct ls as [|lf' ls'].
    + unfold ret in Hrun. injection Hrun as <- <-.
      exists cl, (evs1 ++ [CallNext cl]). split; [exact Hcl|]. simpl.
      split; [now rewrite Hlog1, app_assoc|].
      now rewrite List.filter_app, (filter_not_next _ Hnn).
    + apply IH in Hrun. destruct Hrun as [cl' [evs2 [Hcl' [Hlog2 Hf]]]].
      rewrite Hcl in Hcl'. injection Hcl' as <-.
      exists cl, (evs1 ++ [CallNext cl] ++ evs2). split; [exact Hcl|].
      simpl in Hlog2. split; [rewrite Hlog2, Hlog1; now rewrite <- !app_assoc|].
      rewrite List.filter_app, (filter_not_next _ Hnn). simpl. rewrite Hf.
      reflexivity.
Qed.

(** X10: whenever [nested] returns, it has called [page_iterator_next] once
    for every position of the cursor (once for a cursor without positions),
    each time at the clevel of the base level. *)
Theorem nested_single_pass self it s v s' :
  nested self it s = (Ret v, s') ->
  exists cl evs,
    od_get clevel_od (base_level self) = Some cl /\
    log s' = log s ++ evs /\
    List.filter is_next evs
    = replicate (Nat.max 1 (length (remaining it))) (CallNext cl).
Proof.
  unfold nested. intros H.
  apply bind_Ret_inv in H. destruct H as [tb [s1 [Hnew H]]].
  rewrite new_lists_eq in Hnew. injection Hnew as <- <-.
  apply bind_Ret_inv in H. destruct H as [tb' [s2 [Hloop H]]].
  apply bind_Ret_inv in H. destruct H as [r [s3 [Hget H]]].
  unfold ret in H. injection H as _ <-.
  unfold getitem in Hget. destruct (tb' !! 0); [|discriminate Hget].
  unfold ret in Hget. injection Hget as _ <-.
  apply nested_loop_single_pass in Hloop.
  destruct Hloop as [cl [evs [Hcl [Hlog Hf]]]].
  now exists cl, evs.
Qed.

Lemma nested_single_pass_witness :
  exists cl evs,
    od_get clevel_od (base_level line_word) = Some cl /\
    log (snd (nested line_word two_lines empty_state)) = log empty_state ++ evs /\
    List.filter is_next evs = replicate (Nat.max 1 6) (CallNext cl).
Proof.
  refine (nested_single_pass line_word two_lines empty_state (VList 0)
            (snd (nested line_word two_lines empty_state)) _).
  vm_compute. reflexivity.
Defined.


(** ** The nodes of the coarsest level *)

Section CoarsestNodes.
Variable self : MultiLevelIterator.
Variable cls : list PageIteratorLevel.
Hypothesis Hvalid : valid_spec self = true.
Hypothesis Hcls : clevels (levels self) = Some cls.

Let n := length (levels self).

Lemma coarsest_cls_length : length cls = n.
Proof. symmetry. eapply Forall2_length, clevels_Forall2, Hcls. Qed.

Lemma coarse_step_coarsest it i a0 k to_box s to_box' s' :
  i + 1 < n ->
  coarsest_holds n a0 k to_box s ->
  coarse_step self it i to_box s = (Ret to_box', s') ->
  coarsest_holds n a0
    (if (i =? 0)%nat && top_group_end cls (current it) then S k else k) to_box' s'.
Proof.
  intros Hi [Hlen [H0 [Hgt [Ha0 Hk]]]] Hrun.
  destruct (valid_spec_parts self Hvalid) as [Hd [_ [Hlast Hbx]]].
  fold n in Hbx.
  destruct (lookup_lt_is_Some_2 (levels self) i ltac:(fold n; lia)) as [level Hlv].
  destruct (lookup_lt_is_Some_2 (levels self) (i + 1) ltac:(fold n; lia)) as [lower Hlow].
  destruct (lookup_lt_is_Some_2 (boxers self) i ltac:(lia)) as [b Hb].
  destruct (lookup_lt_is_Some_2 to_box i ltac:(lia)) as [acc Hacc].
  destruct (lookup_lt_is_Some_2 to_box (i + 1) ltac:(lia)) as [child0 Hch].
  destruct (clevels_lookup _ _ _ _ Hcls Hlv) as [c [Hci Hc]].
  destruct (clevels_lookup _ _ _ _ Hcls Hlow) as [c' [Hci' Hc']].
  unfold coarse_step in Hrun.
  rewrite (bind_Ret _ _ _ _ _ (getitem_Some _ _ _ _ Hlv)) in Hrun.
  rewrite (bind_Ret _ _ _ _ _ (getitem_Some _ _ _ _ Hb)) in Hrun.
  rewrite (group_boundaries_eq self it i level lower b to_box s c c' acc child0
             Hlow (str_in_lookup _ _ _ Hlv) Hc Hc' Hacc Hch) in Hrun.
  cbv zeta in Hrun.
  set (st := is_at_beginning_of (current it) c) in *.
  set (tb1 := fst (after_start_check st i to_box (heap s))) in *.
  set (h1 := snd (after_start_check st i to_box (heap s))) in *.
  assert (Htop : (i =? 0)%nat = true ->
                 top_group_end cls (current it) = is_at_final_element (current it) c c').
  { intros E. apply Nat.eqb_eq in E. subst i.
    destruct cls as [|x [|y r]]; try discriminate.
    simpl in Hci, Hci'. injection Hci as ->. injection Hci' as ->. reflexivity. }
  assert (Hh1 : forall l, h1 !!! l = heap s !!! l).
  { intros l. subst h1. unfold after_start_check.
    destruct st; [apply lookup_total_alloc | reflexivity]. }
  assert (Hl1 : length (heap s) <= length h1).
  { subst h1. unfold after_start_check. destruct st; simpl; [rewrite length_app|]; lia. }
  assert (Htb1 : length tb1 = n /\ tb1 !! 0 = Some a0 /\
                 (forall j x, 0 < j -> tb1 !! j = Some x -> a0 < x)).
  { subst tb1. unfold after_start_check. destruct st; simpl; [|auto].
    split; [now rewrite length_insert|].
    split; [rewrite list_lookup_insert_ne by lia; exact H0|].
    intros j x Hj Hx. destruct (decide (j = i + 1)) as [->|Hne].
    - rewrite list_lookup_insert_eq in Hx by lia. injection Hx as <-. exact Ha0.
    - rewrite list_lookup_insert_ne in Hx by lia. now apply (Hgt j). }
  destruct Htb1 as [Hlen1 [H01 Hgt1]].
  assert (Hacc0 : (i =? 0)%nat = true -> acc = a0).
  { intros E. apply Nat.eqb_eq in E. subst i. rewrite H0 in Hacc. now injection Hacc. }
  assert (Haccgt : (i =? 0)%nat = false -> a0 < acc).
  { intros E. apply Nat.eqb_neq in E. apply (Hgt i); [lia | exact Hacc]. }
  destruct (is_at_final_element (current it) c c') eqn:Hend.
  - destruct (contents_at (current it) c) as [[t cf] p].
    destruct (b h1 _ cf p) as [node|e]; [|discriminate Hrun].
    injection Hrun as <- <-. unfold coarsest_holds. simpl heap.
    rewrite length_alter. repeat split; auto; [lia|].
    destruct (i =? 0)%nat eqn:E; simpl.
    + rewrite (Htop eq_refl). rewrite (Hacc0 eq_refl).
      rewrite list_lookup_total_alter_eq by lia.
      rewrite length_app, Hh1. simpl. lia.
    + specialize (Haccgt eq_refl).
      rewrite list_lookup_total_alter_ne by lia. now rewrite Hh1.
  - injection Hrun as <- <-. unfold coarsest_holds. simpl heap.
    repeat split; auto; [lia|].
    rewrite Hh1.
    destruct (i =? 0)%nat eqn:E; simpl; [now rewrite (Htop eq_refl)|exact Hk].
Qed.

Lemma base_step_coarsest it a0 k to_box s to_box' s' :
  coarsest_holds n a0 k to_box s ->
  base_step self it (n - 1) to_box s = (Ret to_box', s') ->
  coarsest_holds n a0 (if (n =? 1)%nat then S k else k) to_box' s'.
Proof.
  intros [Hlen [H0 [Hgt [Ha0 Hk]]]] Hrun.
  destruct (valid_spec_parts self Hvalid) as [Hd [_ [Hlast Hbx]]].
  fold n in Hbx.
  assert (Hn : 0 < n).
  { subst n. destruct (levels self); [discriminate Hlast | simpl; lia]. }
  pose proof Hlast as Hlv. rewrite last_lookup in Hlv. fold n in Hlv.
  replace (Init.Nat.pred n) with (n - 1) in Hlv by lia.
  destruct (lookup_lt_is_Some_2 (boxers self) (n - 1) ltac:(lia)) as [b Hb].
  destruct (lookup_lt_is_Some_2 to_box (n - 1) ltac:(lia)) as [acc Hacc].
  destruct (clevels_lookup _ _ _ _ Hcls Hlv) as [c [_ Hc]].
  unfold base_step in Hrun.
  rewrite (bind_Ret _ _ _ _ _ (getitem_Some _ _ _ _ Hlv)) in Hrun.
  rewrite (bind_Ret _ _ _ _ _ (getitem_Some _ _ _ _ Hb)) in Hrun.
  rewrite (append_leaf_outcome self it (n - 1) _ b to_box s acc c Hacc Hc) in Hrun.
  destruct (contents_at (current it) c) as [[t cf] p].
  destruct (b (heap s) t cf p) as [node|e]; [|discriminate Hrun].
  injection Hrun as <- <-. unfold coarsest_holds. simpl heap.
  rewrite length_alter. repeat split; auto.
  destruct (n =? 1)%nat eqn:E.
  - apply Nat.eqb_eq in E. rewrite E in Hacc. simpl in Hacc.
    rewrite H0 in Hacc. injection Hacc as <-.
    rewrite list_lookup_total_alter_eq by lia. rewrite length_app. simpl. lia.
  - apply Nat.eqb_neq in E.
    assert (a0 < acc) by (apply (Hgt (n - 1)); [lia | exact Hacc]).
    now rewrite list_lookup_total_alter_ne by lia.
Qed.

Lemma nested_body_coarsest it a0 k to_box s to_box' s' :
  coarsest_holds n a0 k to_box s ->
  nested_body self it to_box s = (Ret to_box', s') ->
  coarsest_holds n a0 (if top_group_end cls (current it) then S k else k) to_box' s'.
Proof.
  intros Hinv Hrun.
  destruct (valid_spec_parts self Hvalid) as [Hd [_ [Hlast _]]].
  rewrite (nested_body_split self it to_box s Hd Hlast) in Hrun.
  unfold coarse_then_base in Hrun. fold n in Hrun.
  apply bind_Ret_inv in Hrun. destruct Hrun as [tb1 [s1 [Hcoarse Hbase]]].
  set (top := top_group_end cls (current it)).
  pose proof (for_range_inv (coarse_step self it)
                (fun i tb st => coarsest_holds n a0
                   (if (0 <? i)%nat && top then S k else k) tb st)
                (n - 1) 0 to_box s tb1 s1) as Hfr.
  simpl in Hfr. specialize (Hfr ltac:(
    intros i a st a' st' Hr Hi Hb;
    pose proof (coarse_step_coarsest it i a0 _ a st a' st' ltac:(lia) Hi Hb) as Hstep;
    fold top in Hstep;
    destruct i as [|i]; simpl in *; [|destruct top]; exact Hstep) Hinv Hcoarse).
  apply (base_step_coarsest it a0 (if (0 <? n - 1)%nat && top then S k else k)
           tb1 s1 to_box' s' Hfr) in Hbase.
  pose proof coarsest_cls_length as Hcl.
  destruct (n =? 1)%nat eqn:E.
  - apply Nat.eqb_eq in E.
    assert (Htop : top = true).
    { subst top. unfold top_group_end. destruct cls as [|x [|y r]]; auto.
      simpl in Hcl. lia. }
    assert (Hpos : (0 <? n - 1)%nat = false) by (apply Nat.ltb_ge; lia).
    rewrite Hpos in Hbase. now rewrite Htop.
  - apply Nat.eqb_neq in E.
    assert (Hn : 0 < n).
    { subst n. destruct (levels self); [discriminate Hlast | simpl; lia]. }
    assert (Hpos : (0 <? n - 1)%nat = true) by (apply Nat.ltb_lt; lia).
    rewrite Hpos in Hbase. exact Hbase.
Qed.

Lemma coarsest_holds_log n' a0 k to_box s evs :
  coarsest_holds n' a0 k to_box s ->
  coarsest_holds n' a0 k to_box (mkState (heap s) evs).
Proof. now unfold coarsest_holds. Qed.

Lemma nested_loop_coarsest blank : forall ls lf a0 k to_box s to_box' s',
  coarsest_holds n a0 k to_box s ->
  nested_loop self blank (lf :: ls) to_box s = (Ret to_box', s') ->
  coarsest_holds n a0 (k + length (List.filter (top_group_end cls) (lf :: ls)))
    to_box' s'.
Proof.
  induction ls as [|lf' ls IH]; intros lf a0 k to_box s to_box' s' Hinv Hrun;
    cbn [nested_loop] in Hrun;
    apply bind_Ret_inv in Hrun; destruct Hrun as [tb1 [s1 [Hbody Hrun]]];
    apply bind_Ret_inv in Hrun; destruct Hrun as [r [s2 [Hnext Hrun]]];
    apply except_next_Ret_inv in Hnext; destruct Hnext as [cl [Hcl [-> ->]]];
    apply (nested_body_coarsest _ a0 k) in Hbody; try exact Hinv;
    unfold current in Hbody; simpl hd in Hbody;
    apply (coarsest_holds_log _ _ _ _ _ (log s1 ++ [CallNext cl])) in Hbody.
  - unfold ret in Hrun. injection Hrun as <- <-. simpl.
    destruct (top_group_end cls lf); simpl;
      [now replace (k + 1) with (S k) by lia | now rewrite Nat.add_0_r].
  - apply (IH lf' a0 _ _ _ _ _ Hbody) in Hrun.
    change (List.filter (top_group_end cls) (lf :: lf' :: ls))
      with (if top_group_end cls lf
            then lf :: List.filter (top_group_end cls) (lf' :: ls)
            else List.filter (top_group_end cls) (lf' :: ls)).
    destruct (top_group_end cls lf); [|exact Hrun].
    cbn [length]. rewrite Nat.add_succ_r. exact Hrun.
Qed.

Lemma nested_coarsest blank lf ls s v s' :
  nested self (mkIter (lf :: ls) blank) s = (Ret v, s') ->
  exists nodes,
    v = VList (length (heap s)) /\
    heap s' !! length (heap s) = Some nodes /\
    length nodes = length (List.filter (top_group_end cls) (lf :: ls)).
Proof.
  unfold nested. intros H. fold n in H.
  apply bind_Ret_inv in H. destruct H as [tb [s1 [Hnew H]]].
  rewrite new_lists_eq in Hnew. injection Hnew as <- <-.
  apply bind_Ret_inv in H. destruct H as [tb' [s2 [Hloop H]]].
  apply bind_Ret_inv in H. destruct H as [r [s3 [Hget H]]].
  unfold ret in H. injection H as <- <-.
  simpl remaining in Hloop. simpl exhausted in Hloop.
  destruct (valid_spec_parts self Hvalid) as [_ [_ [Hlast _]]].
  assert (Hn : 0 < n).
  { subst n. destruct (levels self); [discriminate Hlast | simpl; lia]. }
  apply (nested_loop_coarsest blank ls lf (length (heap s)) 0) in Hloop.
  - destruct Hloop as [Hlen [H0 [_ [Ha0 Hk]]]].
    unfold getitem in Hget. rewrite H0 in Hget. unfold ret in Hget.
    injection Hget as <- <-.
    destruct (lookup_lt_is_Some_2 _ _ Ha0) as [nodes Hnodes].
    exists nodes. split; [reflexivity|]. split; [exact Hnodes|].
    rewrite (list_lookup_total_correct _ _ _ Hnodes) in Hk. exact Hk.
  - unfold coarsest_holds. simpl heap.
    split; [apply length_seq|].
    split; [destruct n; [lia | reflexivity]|].
    split; [|split].
    + intros i x Hi Hx. apply lookup_seq in Hx. lia.
    + rewrite length_app, length_replicate. lia.
    + now rewrite lookup_total_fresh by lia.
Qed.
End CoarsestNodes.

(** X11: for a valid level specification with any boxers, whenever [nested]
    returns on a cursor with at least one position, the result is the list
    object it created first, and it holds one node for every position at
    which the group-end predicate of the coarsest level holds (with a single
    level: one node for every position). *)
Theorem nested_one_node_per_top_group self cls blank lf ls s v s' :
  valid_spec self = true ->
  clevels (levels self) = Some cls ->
  nested self (mkIter (lf :: ls) blank) s = (Ret v, s') ->
  exists nodes,
    v = VList (length (heap s)) /\
    heap s' !! length (heap s) = Some nodes /\
    length nodes = length (List.filter (top_group_end cls) (lf :: ls)).
Proof. intros Hv Hc. now apply nested_coarsest. Qed.

Lemma nested_one_node_per_top_group_witness :
  exists nodes,
    VList 0 = VList (length (heap empty_state)) /\
    heap (snd (nested block_line_word two_blocks empty_state)) !! 0 = Some nodes /\
    length nodes = 2.
Proof.
  refine (nested_one_node_per_top_group block_line_word [BLOCK; TEXTLINE; WORD] nowhere
            (hd nowhere (remaining two_blocks)) (tl (remaining two_blocks))
            empty_state (VList 0) (snd (nested block_line_word two_blocks empty_state))
            eq_refl eq_refl _).
  vm_compute. reflexivity.
Defined.


(** ** Errors of [nested] *)

Section BoxerErrors.
Variable self : MultiLevelIterator.
Hypothesis Hvalid : valid_spec self = true.

Lemma coarse_step_safe it i to_box s :
  i + 1 < length (levels self) ->
  length to_box = length (levels self) ->
  step_safe self (coarse_step self it i to_box s).
Proof.
  intros Hi Hlen.
  destruct (valid_spec_parts self Hvalid) as [Hd [[cls Hcls] [Hlast Hbx]]].
  destruct (lookup_lt_is_Some_2 (levels self) i ltac:(lia)) as [level Hlv].
  destruct (lookup_lt_is_Some_2 (levels self) (i + 1) ltac:(lia)) as [lower Hlow].
  destruct (lookup_lt_is_Some_2 (boxers self) i ltac:(lia)) as [b Hb].
  destruct (lookup_lt_is_Some_2 to_box i ltac:(lia)) as [acc Hacc].
  destruct (lookup_lt_is_Some_2 to_box (i + 1) ltac:(lia)) as [child0 Hch].
  destruct (clevels_lookup _ _ _ _ Hcls Hlv) as [c [_ Hc]].
  destruct (clevels_lookup _ _ _ _ Hcls Hlow) as [c' [_ Hc']].
  unfold coarse_step.
  rewrite (bind_Ret _ _ _ _ _ (getitem_Some _ _ _ _ Hlv)).
  rewrite (bind_Ret _ _ _ _ _ (getitem_Some _ _ _ _ Hb)).
  rewrite (group_boundaries_eq self it i level lower b to_box s c c' acc child0
             Hlow (str_in_lookup _ _ _ Hlv) Hc Hc' Hacc Hch).
  cbv zeta.
  assert (Hl' : length (fst (after_start_check (is_at_beginning_of (current it) c) i
                               to_box (heap s))) = length (levels self)).
  { unfold after_start_check. destruct (is_at_beginning_of (current it) c); simpl;
      [rewrite length_insert|]; exact Hlen. }
  destruct (is_at_final_element (current it) c c'); [|exact Hl'].
  destruct (contents_at (current it) c) as [[t cf] p].
  destruct (b _ _ cf p) as [node|e] eqn:Hcall; unfold step_safe; simpl; [exact Hl'|].
  eexists i, b, _, _, _, _. split; [exact Hb | exact Hcall].
Qed.

Lemma coarse_steps_safe it : forall k i to_box s,
  i + k < length (levels self) ->
  length to_box = length (levels self) ->
  step_safe self (for_range (coarse_step self it) i k to_box s).
Proof.
  induction k as [|k IH]; intros i to_box s Hi Hlen; [exact Hlen|].
  simpl for_range. unfold bind.
  pose proof (coarse_step_safe it i to_box s ltac:(lia) Hlen) as Hstep.
  destruct (coarse_step self it i to_box s) as [[tb|e] s1]; [|exact Hstep].
  apply IH; [lia | exact Hstep].
Qed.

Lemma base_step_safe it to_box s :
  length to_box = length (levels self) ->
  step_safe self (base_step self it (length (levels self) - 1) to_box s).
Proof.
  intros Hlen.
  destruct (valid_spec_parts self Hvalid) as [Hd [[cls Hcls] [Hlast Hbx]]].
  assert (Hn : 0 < length (levels self)).
  { destruct (levels self); [discriminate Hlast | simpl; lia]. }
  pose proof Hlast as Hlv. rewrite last_lookup in Hlv.
  replace (Init.Nat.pred (length (levels self))) with (length (levels self) - 1)
    in Hlv by lia.
  destruct (lookup_lt_is_Some_2 (boxers self) (length (levels self) - 1) ltac:(lia))
    as [b Hb].
  destruct (lookup_lt_is_Some_2 to_box (length (levels self) - 1) ltac:(lia))
    as [acc Hacc].
  destruct (clevels_lookup _ _ _ _ Hcls Hlv) as [c [_ Hc]].
  unfold base_step.
  rewrite (bind_Ret _ _ _ _ _ (getitem_Some _ _ _ _ Hlv)).
  rewrite (bind_Ret _ _ _ _ _ (getitem_Some _ _ _ _ Hb)).
  rewrite (append_leaf_outcome self it _ _ b to_box s acc c Hacc Hc).
  destruct (contents_at (current it) c) as [[t cf] p].
  destruct (b (heap s) t cf p) as [node|e] eqn:Hcall; unfold step_safe; simpl;
    [exact Hlen|].
  eexists _, b, _, _, _, _. split; [exact Hb | exact Hcall].
Qed.

Lemma nested_body_safe it to_box s :
  length to_box = length (levels self) ->
  step_safe self (nested_body self it to_box s).
Proof.
  intros Hlen.
  destruct (valid_spec_parts self Hvalid) as [Hd [_ [Hlast _]]].
  rewrite (nested_body_split self it to_box s Hd Hlast).
  unfold coarse_then_base, bind.
  assert (Hn : 0 < length (levels self)).
  { destruct (levels self); [discriminate Hlast | simpl; lia]. }
  pose proof (coarse_steps_safe it (length (levels self) - 1) 0 to_box s
                ltac:(lia) Hlen) as Hc.
  destruct (for_range (coarse_step self it) 0 _ to_box s) as [[tb|e] s1]; [|exact Hc].
  now apply base_step_safe.
Qed.

Lemma nested_loop_safe blank : forall ls to_box s,
  length to_box = length (levels self) ->
  step_safe self (nested_loop self blank ls to_box s).
Proof.
  destruct (valid_spec_parts self Hvalid) as [_ [[cls Hcls] [Hlast _]]].
  pose proof Hlast as Hlv. rewrite last_lookup in Hlv.
  destruct (clevels_lookup _ _ _ _ Hcls Hlv) as [cl [_ Hcl]].
  induction ls as [|lf ls IH]; intros to_box s Hlen; cbn [nested_loop]; unfold bind;
    match goal with |- context [nested_body self ?it to_box s] =>
      pose proof (nested_body_safe it to_box s Hlen) as Hb;
      destruct (nested_body self it to_box s) as [[tb|e] s1]
    end; try exact Hb;
    rewrite (next_eq self blank _ s1 cl Hcl).
  - exact Hb.
  - destruct ls as [|lf' ls']; [exact Hb|]. apply IH. exact Hb.
Qed.

Lemma nested_safe it s :
  match fst (nested self it s) with
  | Ret _ => True
  | Raise e => boxer_raised self e
  end.
Proof.
  unfold nested. unfold bind at 1. rewrite new_lists_eq. unfold bind at 1.
  pose proof (nested_loop_safe (exhausted it) (remaining it)
                (seq (length (heap s)) (length (levels self)))
                (mkState (heap s ++ replicate (length (levels self)) []) (log s))
                (length_seq _ _)) as Hl.
  destruct (nested_loop self _ _ _ _) as [[tb|e] s1]; [|exact Hl].
  unfold step_safe in Hl. simpl in Hl.
  destruct (valid_spec_parts self Hvalid) as [_ [_ [Hlast _]]].
  assert (Hn : 0 < length tb).
  { rewrite Hl. destruct (levels self); [discriminate Hlast | simpl; lia]. }
  destruct (lookup_lt_is_Some_2 tb 0 Hn) as [a Ha].
  rewrite (bind_Ret _ _ _ _ _ (getitem_Some _ _ _ _ Ha)). exact I.
Qed.
End BoxerErrors.

(** X12: with a valid level specification [nested] raises nothing of its
    own: an error that leaves [nested] is an error that one of the boxers
    raised, and when no boxer raises, [nested] returns, on every cursor. *)
Theorem nested_fails_only_in_boxers self it s :
  valid_spec self = true ->
  (forall e s', nested self it s = (Raise e, s') ->
     exists i b h t c p, boxers self !! i = Some b /\ b h t c p = Raise e) /\
  ((forall i b h t c p, boxers self !! i = Some b -> exists v, b h t c p = Ret v) ->
   exists v s', nested self it s = (Ret v, s')).
Proof.
  intros Hvalid. pose proof (nested_safe self Hvalid it s) as H. split.
  - intros e s' Hrun. rewrite Hrun in H. exact H.
  - intros Htotal. destruct (nested self it s) as [[v|e] s']; [now exists v, s'|].
    simpl in H. destruct H as [i [b [h [t [c [p [Hb Hcall]]]]]]].
    destruct (Htotal i b h t c p Hb) as [v Hv]. congruence.
Qed.

Lemma nested_fails_only_in_boxers_witness :
  exists i b h t c p,
    boxers failing_word !! i = Some b /\ b h t c p = Raise (OtherError "boxer").
Proof.
  refine (proj1 (nested_fails_only_in_boxers failing_word one_word_line empty_state
                   eq_refl)
            (OtherError "boxer") (snd (nested failing_word one_word_line empty_state)) _).
  vm_compute. reflexivity.
Defined.

(** ** Level names that clevel_od does not have *)

Lemma for_range_Ret_inv {T} (body : nat -> T -> M T) k :
  forall start acc s acc' s' i,
    for_range body start k acc s = (Ret acc', s') ->
    start <= i < start + k ->
    exists a st a' st', body i a st = (Ret a', st').
Proof.
  induction k as [|k IH]; intros start acc s acc' s' i Hrun Hi; [lia|].
  simpl in Hrun. apply bind_Ret_inv in Hrun. destruct Hrun as [a1 [s1 [Hb Hrun]]].
  destruct (decide (i = start)) as [->|Hne].
  - now exists acc, s, a1, s1.
  - apply (IH (S start) a1 s1 acc' s' i Hrun). lia.
Qed.

Lemma get_contents_unknown self it level s :
  od_get clevel_od level = None ->
  get_contents self it level s = (Raise (KeyError level), s).
Proof.
  intros H. unfold get_contents, bind, od_getitem. now rewrite H.
Qed.

Lemma is_at_beginning_unknown self it level s :
  str_in level (levels self) = true ->
  od_get clevel_od level = None ->
  is_at_beginning self it level s = (Raise (KeyError level), s).
Proof.
  intros Hin H. unfold is_at_beginning, bind, od_getitem. now rewrite Hin, H.
Qed.

Lemma nested_iter_unknown self it i l to_box s :
  levels self !! i = Some l ->
  od_get clevel_od l = None ->
  exists e s', nested_iter self it i to_box s = (Raise e, s').
Proof.
  intros Hl Hod. unfold nested_iter.
  rewrite (bind_Ret _ _ _ _ _ (getitem_Some _ _ _ _ Hl)).
  unfold bind at 1. unfold getitem at 1.
  destruct (boxers self !! i) as [b|]; [|now eexists _, _].
  unfold ret at 1.
  destruct (String.eqb l (base_level self)).
  - unfold append_leaf, bind at 1, getitem at 1.
    destruct (to_box !! i) as [a|]; [|now eexists _, _].
    unfold ret at 1. unfold bind at 1.
    rewrite get_contents_unknown by exact Hod. now eexists _, _.
  - unfold group_boundaries, bind at 1, getitem at 1.
    destruct (levels self !! (i + 1)) as [lower|]; [|now eexists _, _].
    unfold ret at 1. unfold bind at 1.
    rewrite is_at_beginning_unknown by (eauto using str_in_lookup). now eexists _, _.
Qed.

(** X13: a level name that is not a key of clevel_od is not rejected when
    the session is built, but [nested] never returns with it: whatever the
    cursor, the boxers and the other levels are, the run ends in an error. *)
Theorem nested_unknown_level_never_returns self it s l v s' :
  l ∈ levels self ->
  od_get clevel_od l = None ->
  nested self it s <> (Ret v, s').
Proof.
  intros Hin Hod Hrun. unfold nested in Hrun.
  apply bind_Ret_inv in Hrun. destruct Hrun as [tb [s1 [_ Hrun]]].
  apply bind_Ret_inv in Hrun. destruct Hrun as [tb' [s2 [Hloop _]]].
  apply list_elem_of_lookup in Hin. destruct Hin as [i Hi].
  assert (Hbody : exists it' tb1 s4, nested_body self it' tb s1 = (Ret tb1, s4)).
  { destruct (remaining it) as [|lf ls]; cbn [nested_loop] in Hloop;
      apply bind_Ret_inv in Hloop; destruct Hloop as [tb1 [s4 [Hb _]]];
      eexists _, tb1, s4; exact Hb. }
  destruct Hbody as [it' [tb1 [s4 Hb]]].
  unfold nested_body in Hb.
  destruct (for_range_Ret_inv _ _ _ _ _ _ _ i Hb) as [a [st [a' [st' Hstep]]]].
  { split; [lia|]. simpl. eapply lookup_lt_Some, Hi. }
  destruct (nested_iter_unknown self it' i l a st Hi Hod) as [e [s5 Hr]].
  congruence.
Qed.

Lemma nested_unknown_level_never_returns_witness :
  nested page_word two_lines empty_state
  <> (Ret (VList 0), empty_state).
Proof.
  apply (nested_unknown_level_never_returns page_word two_lines empty_state "page").
  - apply list_elem_of_here.
  - reflexivity.
Defined.

(** X14: when the name of the coarsest level is not a key of clevel_od (and
    the session has a boxer for it and its base level is its last level, as
    the constructor sets it), [nested] raises KeyError with that name after
    creating its lists and before any call to the backend or to a boxer: the
    cursor is not advanced. *)
Theorem nested_unknown_coarsest_level self it s l b :
  levels self !! 0 = Some l ->
  boxers self !! 0 = Some b ->
  last (levels self) = Some (base_level self) ->
  od_get clevel_od l = None ->
  nested self it s =
  (Raise (KeyError l),
   mkState (heap s ++ replicate (length (levels self)) []) (log s)).
Proof.
  intros Hl Hb Hlast Hod. unfold nested.
  unfold bind at 1. rewrite new_lists_eq.
  assert (Hn : 0 < length (levels self)) by (eapply lookup_lt_Some, Hl).
  set (tb := seq (length (heap s)) (length (levels self))).
  set (s1 := mkState _ _).
  assert (Hbody : forall it', nested_body self it' tb s1 = (Raise (KeyError l), s1)).
  { intros it'. unfold nested_body.
    destruct (length (levels self)) as [|n] eqn:En; [lia|].
    simpl for_range. unfold bind at 1.
    assert (Hiter : nested_iter self it' 0 tb s1 = (Raise (KeyError l), s1)).
    { unfold nested_iter.
      rewrite (bind_Ret _ _ _ _ _ (getitem_Some _ _ _ _ Hl)).
      rewrite (bind_Ret _ _ _ _ _ (getitem_Some _ _ _ _ Hb)).
      destruct (String.eqb l (base_level self)) eqn:E.
      - unfold append_leaf.
        assert (Ha : tb !! 0 = Some (length (heap s))) by (subst tb; reflexivity).
        rewrite (bind_Ret _ _ _ _ _ (getitem_Some _ _ _ _ Ha)).
        unfold bind at 1. now rewrite get_contents_unknown by exact Hod.
      - unfold group_boundaries.
        destruct (levels self) as [|x [|y r]] eqn:El; [discriminate Hl| |].
        + simpl in Hl, Hlast. injection Hl as ->. injection Hlast as Hbl.
          rewrite <- Hbl, String.eqb_refl in E. discriminate E.
        + assert (Hlow : (x :: y :: r) !! (0 + 1) = Some y) by reflexivity.
          rewrite (bind_Ret _ _ _ _ _ (getitem_Some _ _ _ _ Hlow)).
          unfold bind at 1.
          rewrite is_at_beginning_unknown; [reflexivity| |exact Hod].
          rewrite El. now apply (str_in_lookup _ 0). }
    now rewrite Hiter. }
  unfold bind at 1.
  destruct (remaining it) as [|lf ls]; cbn [nested_loop]; unfold bind at 1;
    now rewrite Hbody.
Qed.

Lemma nested_unknown_coarsest_level_witness :
  nested page_word two_lines empty_state =
  (Raise (KeyError "page"), mkState [[]; []] []).
Proof.
  exact (nested_unknown_coarsest_level page_word two_lines empty_state "page"
           group_boxer eq_refl eq_refl eq_refl eq_refl).
Defined.

(** ** image_to_string as a composition *)

(** X15: whenever [image_to_string] returns, its result is the one of
    [nested] for the session made of the builder's levels and the boxers of
    the builders module, on the page iterator that
    [result_iterator_get_page_iterator] made of the result iterator the
    backend handed out, run after the six calls init, set_page_seg_mode (with
    the builder's layout), set_image, recognize, get_iterator,
    result_iterator_get_page_iterator, in this order; the cleanup follows it
    and changes nothing else. *)
Theorem image_to_string_returns_nested tr bm image lang bld s v s' :
  let b := match bld with None => TextBuilder bm | Some b => b end in
  image_to_string tr bm image lang bld s = (Ret v, s') ->
  exists h res it mli s1,
    raw_init tr lang = Ret h /\
    raw_get_iterator tr h = Ret (Some res) /\
    raw_result_iterator_get_page_iterator tr res = Ret it /\
    MultiLevelIterator_init (builder_levels b) (builders_boxers bm) = Ret mli /\
    nested mli it
      (mkState (heap s)
         (log s ++ [CallInit lang; CallSetPageSegMode h (tesseract_layout b);
                    CallSetImage h; CallRecognize h; CallGetIterator h;
                    CallGetPageIterator]))
    = (Ret v, s1) /\
    s' = mkState (heap s1) (log s1 ++ [CallCleanup h]).
Proof.
  intros b H. unfold image_to_string in H. fold b in H.
  apply bind_Ret_inv in H. destruct H as [h [s0 [Hinit H]]].
  apply raw_call_Ret_inv in Hinit. destruct Hinit as [Hinit ->].
  apply try_finally_Ret_inv in H. destruct H as [s1 [H Hfin]].
  apply raw_call_Ret_inv in Hfin. destruct Hfin as [_ ->].
  apply bind_Ret_inv in H. destruct H as [u1 [s2 [H1 H]]].
  apply raw_call_Ret_inv in H1. destruct H1 as [_ ->].
  apply bind_Ret_inv in H. destruct H as [u2 [s3 [H2 H]]].
  apply raw_call_Ret_inv in H2. destruct H2 as [_ ->].
  apply bind_Ret_inv in H. destruct H as [u3 [s4 [H3 H]]].
  apply raw_call_Ret_inv in H3. destruct H3 as [_ ->].
  apply bind_Ret_inv in H. destruct H as [ores [s5 [H4 H]]].
  apply raw_call_Ret_inv in H4. destruct H4 as [Hres ->].
  destruct ores as [res|]; [|discriminate H].
  apply bind_Ret_inv in H. destruct H as [it [s6 [H5 H]]].
  apply raw_call_Ret_inv in H5. destruct H5 as [Hit ->].
  apply bind_Ret_inv in H. destruct H as [mli [s7 [Hmli H]]].
  unfold lift in Hmli. injection Hmli as Hmli <-.
  apply bind_Ret_inv in H. destruct H as [out [s8 [Hn H]]].
  unfold ret in H. injection H as -> ->.
  exists h, res, it, mli, s1. simpl in Hn. rewrite <- !app_assoc in Hn. simpl in Hn.
  repeat split; assumption.
Qed.

Lemma image_to_string_returns_nested_witness :
  exists h res it mli s1,
    raw_init sample_raw None = Ret h /\
    raw_get_iterator sample_raw h = Ret (Some res) /\
    raw_result_iterator_get_page_iterator sample_raw res = Ret it /\
    MultiLevelIterator_init ["line"; "word"] (canonical_boxers 1) = Ret mli /\
    nested mli it
      (mkState []
         ([] ++ [CallInit None; CallSetPageSegMode h 3; CallSetImage h;
                 CallRecognize h; CallGetIterator h; CallGetPageIterator]))
    = (Ret (VList 0), s1) /\
    snd (image_to_string sample_raw sample_builders VNone None None empty_state)
    = mkState (heap s1) (log s1 ++ [CallCleanup h]).
Proof.
  refine (image_to_string_returns_nested sample_raw sample_builders VNone None None
            empty_state (VList 0)
            (snd (image_to_string sample_raw sample_builders VNone None None empty_state))
            _).
  vm_compute. reflexivity.
Defined.
